(** * A shallow embedding of the CUDA boids simulation (src/kernel.cu)

    Integer device buffers ([int *]) are lists of [Z]; float vectors
    ([glm::vec3]) are records of three reals.  A kernel launch whose threads
    write pairwise distinct locations is modelled as the sequential loop over
    its thread indices.  A read or write outside a buffer is undefined in
    CUDA; reads return a default value and writes are dropped. *)

From Stdlib Require Import ZArith Lia List Bool Permutation Sorting.Sorted.
From Stdlib Require Import Reals Lra Psatz.
Import ListNotations.

Open Scope Z_scope.

(** ** Integer buffers *)

Fixpoint upd {A : Type} (l : list A) (n : nat) (v : A) : list A :=
  match l, n with
  | [], _ => []
  | _ :: t, O => v :: t
  | h :: t, S n' => h :: upd t n' v
  end.

(** [buf[i] = v] *)
Definition storeZ {A : Type} (l : list A) (i : Z) (v : A) : list A :=
  if i <? 0 then l else upd l (Z.to_nat i) v.

(** [buf[i]] on an [int *] buffer. *)
Definition nthZ (l : list Z) (i : Z) : Z := nth (Z.to_nat i) l 0.

(** The thread indices [start, start + n). *)
Fixpoint zrange (start : Z) (n : nat) : list Z :=
  match n with
  | O => []
  | S n' => start :: zrange (start + 1) n'
  end.

(** The indices visited by [for (int i = start; i < end; i++)]. *)
Definition loop_range (start end_ : Z) : list Z :=
  zrange start (Z.to_nat (end_ - start)).

Definition blockSize : Z := 128.

(** [#define gridOOB -1] *)
Definition gridOOB : Z := -1.

(** ** Grid configuration computed in [Boids::initSimulation]

    [gridCellWidth = 2 * max(5, 3, 5) = 10],
    [halfSideCount = (int)(100 / 10) + 1 = 11],
    [gridSideCount = 2 * halfSideCount = 22]. *)
Definition gridSideCount : Z := 22.
Definition gridCellCount : Z := gridSideCount * gridSideCount * gridSideCount.

(** ** [kernResetIntBuffer]

    Launched with [threads] threads; each thread [index] with [index < N]
    writes [value]. *)
Definition kernResetIntBuffer (threads N : Z) (intBuffer : list Z) (value : Z)
  : list Z :=
  fold_left (fun buf index => if index <? N then storeZ buf index value else buf)
    (zrange 0 (Z.to_nat threads)) intBuffer.

(** ** [kernIdentifyCellStartEnd], one thread *)
Definition identify_thread (N : Z) (particleGridIndices : list Z)
    (tables : list Z * list Z) (index : Z) : list Z * list Z :=
  let '(gridCellStartIndices, gridCellEndIndices) := tables in
  if index <? N then
    let thisGrid := nthZ particleGridIndices index in
    if index =? 0 then (storeZ gridCellStartIndices thisGrid 0, gridCellEndIndices)
    else
      let prevGrid := nthZ particleGridIndices (index - 1) in
      if index =? N - 1 then
        let e := storeZ gridCellEndIndices thisGrid index in
        if negb (thisGrid =? prevGrid)
        then (storeZ gridCellStartIndices thisGrid index, e)
        else (gridCellStartIndices, e)
      else if negb (thisGrid =? prevGrid)
      then (storeZ gridCellStartIndices thisGrid index,
            storeZ gridCellEndIndices prevGrid index)
      else (gridCellStartIndices, gridCellEndIndices)
  else (gridCellStartIndices, gridCellEndIndices).

(** The kernel over the threads [0 .. N-1] (the threads [>= N] return at
    once).  On a sorted key array the threads write distinct cells, so the
    sequential order is immaterial. *)
Definition kernIdentifyCellStartEnd (N : Z) (particleGridIndices : list Z)
    (gridCellStartIndices gridCellEndIndices : list Z) : list Z * list Z :=
  fold_left (identify_thread N particleGridIndices) (zrange 0 (Z.to_nat N))
    (gridCellStartIndices, gridCellEndIndices).

(** The table phase of [stepSimulationScatteredGrid] and
    [stepSimulationCoherentGrid]: both tables are reset by
    [kernResetIntBuffer<<<fullGrids, threadsPerBlock>>>(numObjects, _, -1)]
    with [fullGrids = (gridSideCount^3 + blockSize - 1) / blockSize], then
    derived from the sorted cell ids. *)
Definition cell_tables (numObjects cellCount : Z) (sortedGridIndices : list Z)
    (starts ends : list Z) : list Z * list Z :=
  let fullGrids := (cellCount + blockSize - 1) / blockSize in
  let threads := fullGrids * blockSize in
  let starts1 := kernResetIntBuffer threads numObjects starts (-1) in
  let ends1 := kernResetIntBuffer threads numObjects ends (-1) in
  kernIdentifyCellStartEnd numObjects sortedGridIndices starts1 ends1.

(** Spec version of the derivation's contract: cell [c] is occupied by
    the entries of [keys] with value [c], at the positions [start, end). *)
Definition tight_range (keys : list Z) (c s e : Z) : Prop :=
  0 <= s < e /\ e <= Z.of_nat (length keys) /\
  (forall i, 0 <= i < Z.of_nat (length keys) -> (nthZ keys i = c <-> s <= i < e)).

(** ** Device buffers allocated by [initSimulation] and freed by
    [endSimulation] *)

(** The pointer globals of kernel.cu; a pointer is the identity of the
    allocation it points to. *)
Record buffers := mkBuffers {
  dev_pos : nat;
  dev_vel1 : nat;
  dev_vel2 : nat;
  dev_particleArrayIndices : nat;
  dev_particleGridIndices : nat;
  dev_gridCellStartIndices : nat;
  dev_gridCellEndIndices : nat;
  dev_sortedPos : nat;
  dev_sortedVel : nat
}.

(** [initSimulation]: nine [cudaMalloc] calls, in source order. *)
Definition initSimulation_buffers : buffers :=
  mkBuffers 0 1 2 3 4 5 6 7 8.

Definition allocated : list nat := [0; 1; 2; 3; 4; 5; 6; 7; 8]%nat.

Inductive strategy := Naive | ScatteredGrid | CoherentGrid.

(** The pointer swaps at the end of each step function. *)
Definition step_buffers (s : strategy) (b : buffers) : buffers :=
  match s with
  | Naive | ScatteredGrid =>
      {| dev_pos := dev_pos b; dev_vel1 := dev_vel2 b; dev_vel2 := dev_vel1 b;
         dev_particleArrayIndices := dev_particleArrayIndices b;
         dev_particleGridIndices := dev_particleGridIndices b;
         dev_gridCellStartIndices := dev_gridCellStartIndices b;
         dev_gridCellEndIndices := dev_gridCellEndIndices b;
         dev_sortedPos := dev_sortedPos b; dev_sortedVel := dev_sortedVel b |}
  | CoherentGrid =>
      {| dev_pos := dev_sortedPos b; dev_vel1 := dev_vel2 b; dev_vel2 := dev_vel1 b;
         dev_particleArrayIndices := dev_particleArrayIndices b;
         dev_particleGridIndices := dev_particleGridIndices b;
         dev_gridCellStartIndices := dev_gridCellStartIndices b;
         dev_gridCellEndIndices := dev_gridCellEndIndices b;
         dev_sortedPos := dev_pos b; dev_sortedVel := dev_sortedVel b |}
  end.

Definition run_buffers (ss : list strategy) (b : buffers) : buffers :=
  fold_left (fun b s => step_buffers s b) ss b.

(** [endSimulation]: the allocations passed to [cudaFree]. *)
Definition endSimulation_freed (b : buffers) : list nat :=
  [dev_vel1 b; dev_vel2 b; dev_pos b; dev_sortedPos b].

(** The pointer globals after any swaps: the five unswapped ones keep
    their allocation, the four swapped ones range over [0; 1; 2; 7]. *)
Definition swap_ok (b : buffers) : Prop :=
  dev_particleArrayIndices b = 3%nat /\ dev_particleGridIndices b = 4%nat /\
  dev_gridCellStartIndices b = 5%nat /\ dev_gridCellEndIndices b = 6%nat /\
  dev_sortedVel b = 8%nat /\
  Forall (fun a => a = 0%nat \/ a = 1%nat \/ a = 2%nat \/ a = 7%nat)
    [dev_pos b; dev_vel1 b; dev_vel2 b; dev_sortedPos b].

(** ** Float vectors ([glm::vec3]) *)

Open Scope R_scope.

Record vec3 := mkVec { vx : R; vy : R; vz : R }.

Definition vzero : vec3 := mkVec 0 0 0.
Definition vadd (a b : vec3) : vec3 := mkVec (vx a + vx b) (vy a + vy b) (vz a + vz b).
Definition vsub (a b : vec3) : vec3 := mkVec (vx a - vx b) (vy a - vy b) (vz a - vz b).
(** [v * s] *)
Definition vscale (a : vec3) (s : R) : vec3 := mkVec (vx a * s) (vy a * s) (vz a * s).
(** [v / s] *)
Definition vdivs (a : vec3) (s : R) : vec3 := mkVec (vx a / s) (vy a / s) (vz a / s).
Definition vdot (a b : vec3) : R := vx a * vx b + vy a * vy b + vz a * vz b.
(** [glm::length] *)
Definition vlength (a : vec3) : R := sqrt (vdot a a).

(** [buf[i]] on a [glm::vec3 *] buffer. *)
Definition nthV (l : list vec3) (i : Z) : vec3 := nth (Z.to_nat i) l vzero.

(** ** Parameters of the boids rules *)
Definition rule1Distance : R := 5.
Definition rule2Distance : R := 3.
Definition rule3Distance : R := 5.
Definition rule1Scale : R := 1 / 100.
Definition rule2Scale : R := 1 / 10.
Definition rule3Scale : R := 1 / 100.
Definition maxSpeed : R := 1.
Definition scene_scale : R := 100.

(** ** [computeVelocityChange] and [computeVelocityChangeInGrids] *)

(** The loop-carried locals [neighborCount], [center], [separate] and
    [cohesion]. *)
Record rule_acc := mkAcc {
  neighborCount : nat;
  center : vec3;
  separate : vec3;
  cohesion : vec3
}.

Definition acc0 : rule_acc := mkAcc 0 vzero vzero vzero.

(** The body of the inner loop for one neighbour [thatPos], [thatVel]. *)
Definition rule_body (thisPos thatPos thatVel : vec3) (a : rule_acc) : rule_acc :=
  let distance := vlength (vsub thatPos thisPos) in
  let a1 :=
    if Rlt_dec distance rule1Distance
    then mkAcc (S (neighborCount a)) (vadd (center a) thatPos) (separate a) (cohesion a)
    else a in
  let a2 :=
    if Rlt_dec distance rule2Distance
    then mkAcc (neighborCount a1) (center a1)
           (vsub (separate a1) (vsub thatPos thisPos)) (cohesion a1)
    else a1 in
  if Rlt_dec distance rule3Distance
  then mkAcc (neighborCount a2) (center a2) (separate a2) (vadd (cohesion a2) thatVel)
  else a2.

(** The code after the loop. *)
Definition rule_finish (thisPos : vec3) (a : rule_acc) : vec3 :=
  let toCenter :=
    if (0 <? neighborCount a)%nat
    then vsub (vdivs (center a) (INR (neighborCount a))) thisPos
    else vzero in
  vadd (vadd (vscale toCenter rule1Scale) (vscale (separate a) rule2Scale))
       (vscale (cohesion a) rule3Scale).

Definition computeVelocityChange (start end_ iSelf : Z) (pos vel : list vec3) : vec3 :=
  let thisPos := nthV pos iSelf in
  rule_finish thisPos
    (fold_left (fun a i =>
       if (i =? iSelf)%Z then a else rule_body thisPos (nthV pos i) (nthV vel i) a)
     (loop_range start end_) acc0).

(** [indexToBoid] is the [particleArrayIndices] buffer or [NULL]. *)
Definition boid_of (indexToBoid : option (list Z)) (i : Z) : Z :=
  match indexToBoid with Some m => nthZ m i | None => i end.

Definition computeVelocityChangeInGrids (gridsToSearch gridStartIndices gridEndIndices : list Z)
    (index : Z) (indexToBoid : option (list Z)) (pos vel : list vec3) : vec3 :=
  let thisPos := nthV pos index in
  rule_finish thisPos
    (fold_left (fun a grid =>
       if (grid =? gridOOB)%Z then a
       else fold_left (fun a i =>
              let boid := boid_of indexToBoid i in
              if (boid =? index)%Z then a
              else rule_body thisPos (nthV pos boid) (nthV vel boid) a)
            (loop_range (nthZ gridStartIndices grid) (nthZ gridEndIndices grid)) a)
     gridsToSearch acc0).

(** The boids the grid loops visit, in order. *)
Definition grid_boids (gridsToSearch gridStartIndices gridEndIndices : list Z)
    (indexToBoid : option (list Z)) : list Z :=
  flat_map (fun grid =>
    if (grid =? gridOOB)%Z then []
    else map (boid_of indexToBoid)
           (loop_range (nthZ gridStartIndices grid) (nthZ gridEndIndices grid)))
    gridsToSearch.

(** Spec version of the three rules over a candidate list. *)
Definition vsum (l : list vec3) : vec3 := fold_right vadd vzero l.
Definition vopp (a : vec3) : vec3 := mkVec (- vx a) (- vy a) (- vz a).

Definition within (pos : list vec3) (thisPos : vec3) (r : R) (b : Z) : bool :=
  if Rlt_dec (vlength (vsub (nthV pos b) thisPos)) r then true else false.

Definition velocity_change_spec (self : Z) (candidates : list Z) (pos vel : list vec3) : vec3 :=
  let thisPos := nthV pos self in
  let others := filter (fun b => negb (b =? self)%Z) candidates in
  let n1 := filter (within pos thisPos rule1Distance) others in
  let n2 := filter (within pos thisPos rule2Distance) others in
  let n3 := filter (within pos thisPos rule3Distance) others in
  let cohesionTerm :=
    match n1 with
    | [] => vzero
    | _ => vsub (vdivs (vsum (map (nthV pos) n1)) (INR (length n1))) thisPos
    end in
  let separationTerm := vopp (vsum (map (fun b => vsub (nthV pos b) thisPos) n2)) in
  let alignmentTerm := vsum (map (nthV vel) n3) in
  vadd (vadd (vscale cohesionTerm rule1Scale) (vscale separationTerm rule2Scale))
       (vscale alignmentTerm rule3Scale).

(** ** [updateVelocities] *)

Definition vec_is_zero (v : vec3) : bool :=
  if Req_dec_T (vx v) 0 then
    if Req_dec_T (vy v) 0 then
      if Req_dec_T (vz v) 0 then true else false
    else false
  else false.

(** [glm::normalize(v) = v * inversesqrt(dot(v, v))] *)
Definition glm_normalize (v : vec3) : vec3 := vscale v (/ sqrt (vdot v v)).

(** The value stored in [vel2[index]]. *)
Definition updateVelocity (vel1i acceleration : vec3) : vec3 :=
  let newVel := vadd vel1i acceleration in
  let currentSpeed := vlength newVel in
  let speed := Rmin currentSpeed maxSpeed in
  let norm := if vec_is_zero newVel then vzero else glm_normalize newVel in
  vscale norm speed.

(** ** [kernUpdatePos] *)

(** One axis: the [< -scene_scale] test runs before the [> scene_scale]
    test. *)
Definition wrap_axis (c : R) : R :=
  let c1 := if Rlt_dec c (- scene_scale) then scene_scale else c in
  if Rlt_dec scene_scale c1 then - scene_scale else c1.

Definition updatePos (dt : R) (thisPos vel : vec3) : vec3 :=
  let p := vadd thisPos (vscale vel dt) in
  mkVec (wrap_axis (vx p)) (wrap_axis (vy p)) (wrap_axis (vz p)).

Definition kernUpdatePos (N : Z) (dt : R) (pos vel : list vec3) : list vec3 :=
  map (fun index => updatePos dt (nthV pos index) (nthV vel index)) (zrange 0 (Z.to_nat N)).

(** ** [posToGrid], [gridIndex3Dto1D], [posToGridIndex] *)

(** One component of [posToGrid]: [glm::floor] then the back-off test
    [(int)grid.x == gridResolution]. *)
Definition axisToGrid (p gridMin inverseCellWidth : R) (gridResolution : Z) : Z :=
  let g := Int_part ((p - gridMin) * inverseCellWidth) in
  if (g =? gridResolution)%Z then (gridResolution - 1)%Z else g.

Definition posToGrid (pos gridMin : vec3) (inverseCellWidth : R) (gridResolution : Z)
  : Z * Z * Z :=
  (axisToGrid (vx pos) (vx gridMin) inverseCellWidth gridResolution,
   axisToGrid (vy pos) (vy gridMin) inverseCellWidth gridResolution,
   axisToGrid (vz pos) (vz gridMin) inverseCellWidth gridResolution).

Definition gridIndex3Dto1D (x y z gridResolution : Z) : Z :=
  if ((x <? 0) || (gridResolution <=? x) ||
      (y <? 0) || (gridResolution <=? y) ||
      (z <? 0) || (gridResolution <=? z))%Z
  then gridOOB
  else (x + y * gridResolution + z * gridResolution * gridResolution)%Z.

Definition posToGridIndex (pos gridMin : vec3) (inverseCellWidth : R) (gridResolution : Z) : Z :=
  let '(x, y, z) := posToGrid pos gridMin inverseCellWidth gridResolution in
  gridIndex3Dto1D x y z gridResolution.

(** ** [updateVelNeighborSearch] *)

(** [#define dim 3], [maxNumGridSearch = 27]. *)
Definition dim : Z := 3.
Definition maxNumGridSearch : nat := 27.

(** The triple loop filling [int gridsToSearch[maxNumGridSearch]]. *)
Definition gridsToSearch (thisGrid : Z * Z * Z) (gridResolution : Z) : list Z :=
  let '(gx, gy, gz) := thisGrid in
  fold_left (fun arr x =>
    fold_left (fun arr y =>
      fold_left (fun arr z =>
        storeZ arr (gridIndex3Dto1D (x + 1) (y + 1) (z + 1) dim)
          (gridIndex3Dto1D (gx + x) (gy + y) (gz + z) gridResolution))
        [-1; 0; 1]%Z arr)
      [-1; 0; 1]%Z arr)
    [-1; 0; 1]%Z (repeat 0%Z maxNumGridSearch).

(** The grid globals of kernel.cu passed to the kernels. *)
Record grid_params := mkGrid {
  g_sideCount : Z;
  g_minimum : vec3;
  g_inverseCellWidth : R
}.

(** The value thread [index] stores in [vel2[index]]. *)
Definition updateVelNeighborSearch (g : grid_params)
    (gridCellStartIndices gridCellEndIndices : list Z)
    (particleArrayIndices : option (list Z)) (pos vel1 : list vec3) (index : Z) : vec3 :=
  let thisPos := nthV pos index in
  let thisGrid := posToGrid thisPos (g_minimum g) (g_inverseCellWidth g) (g_sideCount g) in
  let grids := gridsToSearch thisGrid (g_sideCount g) in
  updateVelocity (nthV vel1 index)
    (computeVelocityChangeInGrids grids gridCellStartIndices gridCellEndIndices
       index particleArrayIndices pos vel1).

(** ** Simulation state and the three step functions *)

(** [dev_pos], [dev_vel1] and the two cell tables, as seen at the start of
    a step. *)
Record sim := mkSim {
  s_pos : list vec3;
  s_vel1 : list vec3;
  s_start : list Z;
  s_end : list Z
}.

(** [kernComputeIndices]: the [particleGridIndices] it writes (it writes
    [particleArrayIndices[i] = i] beside). *)
Definition kernComputeIndices (N : Z) (g : grid_params) (pos : list vec3) : list Z :=
  map (fun index => posToGridIndex (nthV pos index) (g_minimum g) (g_inverseCellWidth g)
                      (g_sideCount g))
      (zrange 0 (Z.to_nat N)).

(** [thrust::sort_by_key(keys, keys + N, values)] with [values = 0..N-1]
    is unstable: the step functions take the [particleArrayIndices] it
    produces, [pai], and this is what a run of the sort may produce. *)
Definition sort_by_key_result (keys pai : list Z) : Prop :=
  Permutation pai (zrange 0 (length keys)) /\ Sorted Z.le (map (nthZ keys) pai).

Definition stepSimulationNaive (N : Z) (dt : R) (st : sim) : sim :=
  let pos := s_pos st in
  let vel1 := s_vel1 st in
  let vel2 := map (fun index =>
                updateVelocity (nthV vel1 index) (computeVelocityChange 0 N index pos vel1))
                (zrange 0 (Z.to_nat N)) in
  mkSim (kernUpdatePos N dt pos vel2) vel2 (s_start st) (s_end st).

Definition stepSimulationScatteredGrid (N : Z) (g : grid_params) (pai : list Z) (dt : R)
    (st : sim) : sim :=
  let pos := s_pos st in
  let vel1 := s_vel1 st in
  let keys := kernComputeIndices N g pos in
  let '(starts, ends) :=
    cell_tables N (g_sideCount g * g_sideCount g * g_sideCount g)
      (map (nthZ keys) pai) (s_start st) (s_end st) in
  let vel2 := map (updateVelNeighborSearch g starts ends (Some pai) pos vel1)
                (zrange 0 (Z.to_nat N)) in
  mkSim (kernUpdatePos N dt pos vel2) vel2 starts ends.

(** [kernSortPosVel]: [sorted[index] = buf[particleArrayIndices[index]]]. *)
Definition kernSortPosVel (pai : list Z) (N : Z) (buf : list vec3) : list vec3 :=
  map (fun index => nthV buf (nthZ pai index)) (zrange 0 (Z.to_nat N)).

(** The final swaps make [dev_pos] the integrated [dev_sortedPos] and
    [dev_vel1] the new [dev_vel2]. *)
Definition stepSimulationCoherentGrid (N : Z) (g : grid_params) (pai : list Z) (dt : R)
    (st : sim) : sim :=
  let pos := s_pos st in
  let vel1 := s_vel1 st in
  let keys := kernComputeIndices N g pos in
  let '(starts, ends) :=
    cell_tables N (g_sideCount g * g_sideCount g * g_sideCount g)
      (map (nthZ keys) pai) (s_start st) (s_end st) in
  let sortedPos := kernSortPosVel pai N pos in
  let sortedVel := kernSortPosVel pai N vel1 in
  let vel2 := map (updateVelNeighborSearch g starts ends None sortedPos sortedVel)
                (zrange 0 (Z.to_nat N)) in
  mkSim (kernUpdatePos N dt sortedPos vel2) vel2 starts ends.

(** [initSimulation]: [kernGenerateRandomPosArray] writes
    [scene_scale * generateRandomVec3(1, index)]; [rnd index] stands for
    the random vector, whose components [thrust::uniform_real_distribution(-1, 1)]
    draws in [[-1, 1]].  [dev_vel1] and the cell tables are uninitialised
    device memory, given as [vel0], [starts0], [ends0]. *)
Definition initSimulation (N : Z) (rnd : Z -> vec3) (vel0 : list vec3)
    (starts0 ends0 : list Z) : sim :=
  mkSim (map (fun index => mkVec (scene_scale * vx (rnd index))
                                 (scene_scale * vy (rnd index))
                                 (scene_scale * vz (rnd index)))
             (zrange 0 (Z.to_nat N)))
        vel0 starts0 ends0.

(** The states reachable by [initSimulation] followed by steps of any
    strategy, time step and sort outcome. *)
Inductive reachable (N : Z) (g : grid_params) (rnd : Z -> vec3) : sim -> Prop :=
  | reach_init vel0 starts0 ends0 :
      reachable N g rnd (initSimulation N rnd vel0 starts0 ends0)
  | reach_naive dt st :
      reachable N g rnd st -> reachable N g rnd (stepSimulationNaive N dt st)
  | reach_scattered pai dt st :
      reachable N g rnd st -> reachable N g rnd (stepSimulationScatteredGrid N g pai dt st)
  | reach_coherent pai dt st :
      reachable N g rnd st -> reachable N g rnd (stepSimulationCoherentGrid N g pai dt st).

(** A position inside the scene cube. *)
Definition in_scene (p : vec3) : Prop :=
  - scene_scale <= vx p <= scene_scale /\
  - scene_scale <= vy p <= scene_scale /\
  - scene_scale <= vz p <= scene_scale.

(** ** Concrete configurations

    [pair_sim n]: two agents at rest one unit apart on the x axis, with
    cell tables of [n] entries all [-1].  [trio_sim]: three moving agents
    at x = 12, 11 and 8, with the cell tables of [initSimulation]'s grid
    all [-1]. *)
Definition pair_pos : list vec3 := [mkVec 0 0 0; mkVec 1 0 0].
Definition pair_sim (n : nat) : sim :=
  mkSim pair_pos [vzero; vzero] (repeat (-1)%Z n) (repeat (-1)%Z n).
(** The sampled vectors that put [initSimulation]'s agents at [pair_pos]. *)
Definition pair_rnd (i : Z) : vec3 := if (i =? 0)%Z then vzero else mkVec (1 / 100) 0 0.
Definition trio_sim : sim :=
  mkSim [mkVec 12 0 0; mkVec 11 0 0; mkVec 8 0 0]
        [mkVec (1 / 2) 0 0; mkVec 0 (1 / 2) 0; mkVec 0 0 (1 / 2)]
        (repeat (-1)%Z (Z.to_nat gridCellCount)) (repeat (-1)%Z (Z.to_nat gridCellCount)).

(** ** Further functions of kernel.cu *)

Open Scope Z_scope.

(** [hash]: [unsigned int] arithmetic, that is modulo [2^32]. *)
Definition u32 (x : Z) : Z := x mod 2 ^ 32.

(** The six assignments to [a], in source order. *)
Definition hash_step1 (a : Z) : Z := u32 ((a + 0x7ed55d16) + Z.shiftl a 12).
Definition hash_step2 (a : Z) : Z := u32 (Z.lxor (Z.lxor a 0xc761c23c) (Z.shiftr a 19)).
Definition hash_step3 (a : Z) : Z := u32 ((a + 0x165667b1) + Z.shiftl a 5).
Definition hash_step4 (a : Z) : Z := u32 (Z.lxor (a + 0xd3a2646c) (Z.shiftl a 9)).
Definition hash_step5 (a : Z) : Z := u32 ((a + 0xfd7046c5) + Z.shiftl a 3).
Definition hash_step6 (a : Z) : Z := u32 (Z.lxor (Z.lxor a 0xb55a4f09) (Z.shiftr a 16)).

Definition hash (a : Z) : Z :=
  let a := hash_step1 a in
  let a := hash_step2 a in
  let a := hash_step3 a in
  let a := hash_step4 a in
  let a := hash_step5 a in
  let a := hash_step6 a in
  a.

(** Slot [n] of the [gridsToSearch] array: the offsets [n mod 3 - 1],
    [(n / 3) mod 3 - 1] and [n / 9 - 1] on the three axes. *)
Definition search_slot (gx gy gz r n : Z) : Z :=
  gridIndex3Dto1D (gx + (n mod 3 - 1)) (gy + ((n / 3) mod 3 - 1)) (gz + (n / 9 - 1)) r.

(** The write thread [index] of [kernIdentifyCellStartEnd] makes to
    [gridCellStartIndices] and to [gridCellEndIndices], as [(cell, value)]. *)
Definition start_write (N : Z) (particleGridIndices : list Z) (index : Z) : option (Z * Z) :=
  if index <? N then
    let thisGrid := nthZ particleGridIndices index in
    if index =? 0 then Some (thisGrid, 0)
    else if negb (thisGrid =? nthZ particleGridIndices (index - 1))
    then Some (thisGrid, index) else None
  else None.

Definition end_write (N : Z) (particleGridIndices : list Z) (index : Z) : option (Z * Z) :=
  if index <? N then
    let thisGrid := nthZ particleGridIndices index in
    if index =? 0 then None
    else
      let prevGrid := nthZ particleGridIndices (index - 1) in
      if index =? N - 1 then Some (thisGrid, index)
      else if negb (thisGrid =? prevGrid) then Some (prevGrid, index) else None
  else None.

Definition store_opt (t : list Z) (w : option (Z * Z)) : list Z :=
  match w with Some (c, v) => storeZ t c v | None => t end.

Open Scope R_scope.

(** A position inside the box of [g_sideCount g] cells per axis from
    [g_minimum g]. *)
Definition in_grid (g : grid_params) (p : vec3) : Prop :=
  let m := g_minimum g in
  let w := IZR (g_sideCount g) / g_inverseCellWidth g in
  vx m <= vx p <= vx m + w /\ vy m <= vy p <= vy m + w /\ vz m <= vz p <= vz m + w.

(** The grid globals computed by [Boids::initSimulation]; the cast
    [(int)] truncates towards zero. *)
Definition float_to_int (x : R) : Z :=
  if Rle_dec 0 x then Int_part x else (- Int_part (- x))%Z.
Definition gridCellWidth_init : R := 2 * Rmax (Rmax rule1Distance rule2Distance) rule3Distance.
Definition halfSideCount_init : Z := (float_to_int (scene_scale / gridCellWidth_init) + 1)%Z.
Definition gridSideCount_init : Z := (2 * halfSideCount_init)%Z.
Definition gridCellCount_init : Z := (gridSideCount_init * gridSideCount_init * gridSideCount_init)%Z.
Definition gridInverseCellWidth_init : R := 1 / gridCellWidth_init.
Definition halfGridWidth_init : R := gridCellWidth_init * IZR halfSideCount_init.
Definition initSimulation_grid : grid_params :=
  mkGrid gridSideCount_init
    (mkVec (0 - halfGridWidth_init) (0 - halfGridWidth_init) (0 - halfGridWidth_init))
    gridInverseCellWidth_init.

(** ** [kernCopyPositionsToVBO], [kernCopyVelocitiesToVBO],
    [Boids::copyBoidsToVBO]

    A [float *] VBO is a list of reals; four floats per boid. *)
Definition nthR (l : list R) (i : Z) : R := nth (Z.to_nat i) l 0.

(** The four stores [vbo[4 * index + 0 .. 3]]. *)
Definition store4 (vbo : list R) (index : Z) (a b c d : R) : list R :=
  storeZ (storeZ (storeZ (storeZ vbo (4 * index + 0) a) (4 * index + 1) b)
    (4 * index + 2) c) (4 * index + 3) d.

(** The value [store4] puts at offset [j]. *)
Definition sel4 {A : Type} (j : Z) (a b c d : A) : A :=
  if (j =? 0)%Z then a else if (j =? 1)%Z then b else if (j =? 2)%Z then c else d.

Definition kernCopyPositionsToVBO (threads N : Z) (pos : list vec3) (vbo : list R) (s_scale : R)
  : list R :=
  fold_left (fun vbo index =>
    let c_scale := -1 / s_scale in
    if (index <? N)%Z then
      storeZ (storeZ (storeZ (storeZ vbo (4 * index + 0) (vx (nthV pos index) * c_scale))
        (4 * index + 1) (vy (nthV pos index) * c_scale))
        (4 * index + 2) (vz (nthV pos index) * c_scale))
        (4 * index + 3) 1
    else vbo) (zrange 0 (Z.to_nat threads)) vbo.

(** [0.3f] is [3 / 10]. *)
Definition kernCopyVelocitiesToVBO (threads N : Z) (vel : list vec3) (vbo : list R) (s_scale : R)
  : list R :=
  fold_left (fun vbo index =>
    if (index <? N)%Z then
      storeZ (storeZ (storeZ (storeZ vbo (4 * index + 0) (vx (nthV vel index) + 3 / 10))
        (4 * index + 1) (vy (nthV vel index) + 3 / 10))
        (4 * index + 2) (vz (nthV vel index) + 3 / 10))
        (4 * index + 3) 1
    else vbo) (zrange 0 (Z.to_nat threads)) vbo.

(** Both kernels run [fullBlocksPerGrid * blockSize] threads. *)
Definition copyBoidsToVBO (numObjects : Z) (pos vel1 : list vec3)
    (vbodptr_positions vbodptr_velocities : list R) : list R * list R :=
  let fullBlocksPerGrid := ((numObjects + blockSize - 1) / blockSize)%Z in
  let threads := (fullBlocksPerGrid * blockSize)%Z in
  (kernCopyPositionsToVBO threads numObjects pos vbodptr_positions scene_scale,
   kernCopyVelocitiesToVBO threads numObjects vel1 vbodptr_velocities scene_scale).

(** * Helper lemmas *)

Arguments IZR : simpl never.
Arguments INR : simpl never.

Lemma vec_ext (a b : vec3) : vx a = vx b -> vy a = vy b -> vz a = vz b -> a = b.
Proof. destruct a, b; simpl; intros -> -> ->; reflexivity. Qed.

Ltac vec_eq := apply vec_ext; simpl.

Lemma zrange_length (s : Z) (n : nat) : length (zrange s n) = n.
Proof. revert s; induction n; intros s; simpl; auto. Qed.

Lemma nth_zrange (n i : nat) (s d : Z) :
  (i < n)%nat -> nth i (zrange s n) d = (s + Z.of_nat i)%Z.
Proof.
  revert s i; induction n as [|n IH]; intros s i Hi; [lia|].
  destruct i as [|i]; simpl; [lia|].
  rewrite IH by lia. lia.
Qed.

Lemma nth_map_zrange {A : Type} (f : Z -> A) (n i : nat) (s : Z) (d : A) :
  (i < n)%nat -> nth i (map f (zrange s n)) d = f (s + Z.of_nat i)%Z.
Proof.
  revert s i; induction n as [|n IH]; intros s i Hi; [lia|].
  destruct i as [|i]; simpl; [f_equal; lia|].
  rewrite IH by lia. f_equal; lia.
Qed.

Lemma nthV_map_zrange (f : Z -> vec3) (N k : Z) :
  (0 <= k < N)%Z -> nthV (map f (zrange 0 (Z.to_nat N))) k = f k.
Proof.
  intros Hk. unfold nthV. rewrite nth_map_zrange by lia. f_equal; lia.
Qed.

Lemma In_zrange (s : Z) (n : nat) (i : Z) :
  In i (zrange s n) <-> (s <= i < s + Z.of_nat n)%Z.
Proof.
  revert s; induction n as [|n IH]; intros s; simpl; [lia|].
  rewrite IH. lia.
Qed.

(** ** The wrap-around of [kernUpdatePos] *)

Ltac rlt_cases :=
  repeat match goal with
         | |- context [Rlt_dec ?a ?b] =>
             lazymatch a with context [Rlt_dec _ _] => fail | _ =>
             lazymatch b with context [Rlt_dec _ _] => fail | _ =>
               destruct (Rlt_dec a b) end end
         end;
  try (exfalso; lra); try lra.

Lemma wrap_axis_above (c : R) : scene_scale < c -> wrap_axis c = - scene_scale.
Proof. unfold wrap_axis, scene_scale. intros H. rlt_cases. Qed.

Lemma wrap_axis_below (c : R) : c < - scene_scale -> wrap_axis c = scene_scale.
Proof. unfold wrap_axis, scene_scale. intros H. rlt_cases. Qed.

Lemma wrap_axis_inside (c : R) : - scene_scale <= c <= scene_scale -> wrap_axis c = c.
Proof. unfold wrap_axis, scene_scale. intros H. rlt_cases. Qed.

Lemma wrap_axis_range (c : R) : - scene_scale <= wrap_axis c <= scene_scale.
Proof. unfold wrap_axis, scene_scale. rlt_cases. Qed.

Lemma updatePos_in_scene (dt : R) (p v : vec3) : in_scene (updatePos dt p v).
Proof. unfold in_scene, updatePos; simpl; repeat split; apply wrap_axis_range. Qed.

Lemma kernUpdatePos_in_scene (N : Z) (dt : R) (pos vel : list vec3) :
  Forall in_scene (kernUpdatePos N dt pos vel).
Proof.
  unfold kernUpdatePos. apply Forall_forall. intros p Hp.
  apply in_map_iff in Hp as [i [<- _]]. apply updatePos_in_scene.
Qed.

(** ** Buffers *)

Lemma run_buffers_swap_ok (ss : list strategy) (b : buffers) :
  swap_ok b -> swap_ok (run_buffers ss b).
Proof.
  revert b; induction ss as [|s ss IH]; intros b Hb; simpl; [exact Hb|].
  apply IH. destruct Hb as (H1 & H2 & H3 & H4 & H5 & H6).
  inversion H6 as [|? ? Hp H7]; subst. inversion H7 as [|? ? Hv1 H8]; subst.
  inversion H8 as [|? ? Hv2 H9]; subst. inversion H9 as [|? ? Hsp _]; subst.
  destruct s; unfold swap_ok; simpl; repeat split; auto;
    repeat constructor; assumption.
Qed.

Lemma nth_upd_other {A : Type} (l : list A) (m n : nat) (v d : A) :
  n <> m -> nth n (upd l m v) d = nth n l d.
Proof.
  revert m n; induction l as [|h t IH]; intros m n Hnm; simpl; [reflexivity|].
  destruct m, n; simpl; try lia; try reflexivity.
  apply IH. lia.
Qed.

Lemma nthZ_storeZ_other (l : list Z) (j i v : Z) :
  (0 <= i)%Z -> i <> j -> nthZ (storeZ l j v) i = nthZ l i.
Proof.
  intros Hi Hij. unfold storeZ, nthZ.
  destruct (j <? 0)%Z eqn:Hj; [reflexivity|].
  apply Z.ltb_ge in Hj. apply nth_upd_other. lia.
Qed.

(** The reset kernel leaves every entry at or beyond [N] as it was. *)
Lemma kernResetIntBuffer_above (threads N : Z) (buf : list Z) (value i : Z) :
  (0 <= N <= i)%Z -> nthZ (kernResetIntBuffer threads N buf value) i = nthZ buf i.
Proof.
  intros Hi. unfold kernResetIntBuffer.
  generalize 0%Z as s. generalize (Z.to_nat threads) as n.
  intros n; revert buf; induction n as [|n IH]; intros buf s; simpl; [reflexivity|].
  rewrite IH. destruct (s <? N)%Z eqn:Hs; [|reflexivity].
  apply Z.ltb_lt in Hs. apply nthZ_storeZ_other; lia.
Qed.

(** * Claims *)

(** C1 (code_bug).  On the sorted cell-id array [[0;0;0;1;1;2]] ([N = 6])
    with the code's grid, the start/end derivation yields [start = [0;3;5]]
    but [end = [3;-1;5]]: thread [N-1] stores [end[thisGrid] = N-1]
    instead of [N], and never stores [end[prevGrid]] when the cell changes
    at [N-1].  So cells 1 and 2, both occupied, get no tight half-open
    range. *)
Theorem kernIdentifyCellStartEnd_last_index :
  let cells := repeat (-1)%Z (Z.to_nat gridCellCount) in
  let '(starts, ends) := cell_tables 6 gridCellCount [0; 0; 0; 1; 1; 2]%Z cells cells in
  firstn 3 starts = [0; 3; 5]%Z /\ firstn 3 ends = [3; -1; 5]%Z /\
  ~ tight_range [0; 0; 0; 1; 1; 2]%Z 1 (nthZ starts 1) (nthZ ends 1) /\
  ~ tight_range [0; 0; 0; 1; 1; 2]%Z 2 (nthZ starts 2) (nthZ ends 2).
Proof.
  intros cells.
  assert (Ht : cell_tables 6 gridCellCount [0; 0; 0; 1; 1; 2]%Z cells cells =
               ([0; 3; 5]%Z ++ repeat (-1)%Z (Z.to_nat (gridCellCount - 3)), [3; -1; 5]%Z ++ repeat (-1)%Z (Z.to_nat (gridCellCount - 3))))
    by (vm_compute; reflexivity).
  rewrite Ht. cbn iota beta.
  split; [reflexivity|]. split; [reflexivity|].
  unfold tight_range; simpl length.
  split; intros (Hr & _); vm_compute in Hr; destruct Hr as [_ Hr]; discriminate.
Qed.

(** C3 (code_bug).  The grid steps reset the cell tables with
    [kernResetIntBuffer(numObjects, ...)], so only the first [numObjects]
    entries are reset, not all [gridCellCount].  With [N = 2] agents in cell
    7000 at one step and in cell 0 at the next, cell 7000 is empty after the
    second derivation but keeps [start = 0], [end = 1] instead of the
    sentinel. *)
Theorem cell_tables_reset_first_N_only :
  (forall threads N buf value i, (0 <= N <= i)%Z ->
     nthZ (kernResetIntBuffer threads N buf value) i = nthZ buf i) /\
  let cells := repeat (-1)%Z (Z.to_nat gridCellCount) in
  let '(s1, e1) := cell_tables 2 gridCellCount [7000; 7000]%Z cells cells in
  let '(s2, e2) := cell_tables 2 gridCellCount [0; 0]%Z s1 e1 in
  nthZ s2 7000 = 0%Z /\ nthZ e2 7000 = 1%Z.
Proof.
  split; [exact kernResetIntBuffer_above|].
  vm_compute. split; reflexivity.
Qed.

(** C9 (code_bug).  Whatever steps ran, [endSimulation] frees only
    [dev_vel1], [dev_vel2], [dev_pos] and [dev_sortedPos]: the allocations
    of [dev_particleArrayIndices], [dev_particleGridIndices], the two cell
    tables and [dev_sortedVel], all made by [initSimulation], are never
    freed. *)
Theorem endSimulation_frees_subset :
  forall ss : list strategy,
  let b := run_buffers ss initSimulation_buffers in
  Forall (fun a => In a allocated /\ ~ In a (endSimulation_freed b))
    [dev_particleArrayIndices b; dev_particleGridIndices b;
     dev_gridCellStartIndices b; dev_gridCellEndIndices b; dev_sortedVel b].
Proof.
  intros ss b.
  assert (Hb : swap_ok b).
  { apply run_buffers_swap_ok. unfold swap_ok; simpl; repeat split;
      repeat apply Forall_cons; try apply Forall_nil; lia. }
  destruct Hb as (H1 & H2 & H3 & H4 & H5 & H6).
  assert (Hf : forall a, In a (endSimulation_freed b) ->
                 a = 0%nat \/ a = 1%nat \/ a = 2%nat \/ a = 7%nat)
    by (intros a Ha; rewrite Forall_forall in H6; apply H6;
        unfold endSimulation_freed in Ha; simpl in *; tauto).
  rewrite H1, H2, H3, H4, H5.
  repeat apply Forall_cons; try apply Forall_nil;
    (split; [unfold allocated; simpl; tauto | intros Hin; apply Hf in Hin; lia]).
Qed.

(** C7.  [kernUpdatePos] integrates [pos + vel * dt] with the velocity
    stored this step, then wraps each axis on its own: above the positive
    bound it resets to exactly [-scene_scale], below the negative bound to
    exactly [scene_scale], otherwise it keeps the coordinate.  All three step
    functions integrate with the new velocity ([dev_vel2], which becomes
    [dev_vel1]). *)
Theorem kernUpdatePos_wraps_each_axis :
  (forall dt p v, updatePos dt p v =
     mkVec (wrap_axis (vx p + vx v * dt)) (wrap_axis (vy p + vy v * dt))
           (wrap_axis (vz p + vz v * dt))) /\
  (forall c, scene_scale < c -> wrap_axis c = - scene_scale) /\
  (forall c, c < - scene_scale -> wrap_axis c = scene_scale) /\
  (forall c, - scene_scale <= c <= scene_scale -> wrap_axis c = c) /\
  (forall eps, 0 < eps -> wrap_axis (scene_scale + eps) = - scene_scale) /\
  (forall N dt st k, (0 <= k < N)%Z ->
     let st' := stepSimulationNaive N dt st in
     nthV (s_pos st') k = updatePos dt (nthV (s_pos st) k) (nthV (s_vel1 st') k)) /\
  (forall N g pai dt st k, (0 <= k < N)%Z ->
     let st' := stepSimulationScatteredGrid N g pai dt st in
     nthV (s_pos st') k = updatePos dt (nthV (s_pos st) k) (nthV (s_vel1 st') k)) /\
  (forall N g pai dt st k, (0 <= k < N)%Z ->
     let st' := stepSimulationCoherentGrid N g pai dt st in
     nthV (s_pos st') k =
       updatePos dt (nthV (kernSortPosVel pai N (s_pos st)) k) (nthV (s_vel1 st') k)).
Proof.
  split; [reflexivity|].
  split; [exact wrap_axis_above|].
  split; [exact wrap_axis_below|].
  split; [exact wrap_axis_inside|].
  split; [intros eps Heps; apply wrap_axis_above; lra|].
  split; [|split].
  - intros N dt st k Hk st'. unfold st', stepSimulationNaive, kernUpdatePos; simpl.
    rewrite nthV_map_zrange by exact Hk. reflexivity.
  - intros N g pai dt st k Hk st'. unfold st', stepSimulationScatteredGrid.
    destruct (cell_tables _ _ _ _ _) as [starts ends].
    unfold kernUpdatePos; simpl. rewrite nthV_map_zrange by exact Hk. reflexivity.
  - intros N g pai dt st k Hk st'. unfold st', stepSimulationCoherentGrid.
    destruct (cell_tables _ _ _ _ _) as [starts ends].
    unfold kernUpdatePos; simpl. rewrite nthV_map_zrange by exact Hk. reflexivity.
Qed.

(** C8.  From [initSimulation], whose random vectors have components in
    [[-1, 1]], any sequence of steps of any strategy keeps every coordinate
    of every position in [[-scene_scale, scene_scale]]. *)
Theorem reachable_positions_in_scene :
  forall N g rnd st,
    (forall i, -1 <= vx (rnd i) <= 1 /\ -1 <= vy (rnd i) <= 1 /\ -1 <= vz (rnd i) <= 1) ->
    reachable N g rnd st ->
    Forall in_scene (s_pos st).
Proof.
  intros N g rnd st Hrnd Hr.
  induction Hr as [vel0 starts0 ends0 | dt st _ _ | pai dt st _ _ | pai dt st _ _].
  - simpl. apply Forall_forall. intros p Hp.
    apply in_map_iff in Hp as [i [<- _]].
    destruct (Hrnd i) as (Hx & Hy & Hz).
    unfold in_scene, scene_scale; simpl. repeat split; nra.
  - apply kernUpdatePos_in_scene.
  - unfold stepSimulationScatteredGrid. destruct (cell_tables _ _ _ _ _).
    apply kernUpdatePos_in_scene.
  - unfold stepSimulationCoherentGrid. destruct (cell_tables _ _ _ _ _).
    apply kernUpdatePos_in_scene.
Qed.

Lemma reachable_positions_in_scene_witness :
  (forall i : Z, -1 <= vx ((fun _ => mkVec (1/2) 0 (-1)) i) <= 1 /\
                 -1 <= vy ((fun _ => mkVec (1/2) 0 (-1)) i) <= 1 /\
                 -1 <= vz ((fun _ => mkVec (1/2) 0 (-1)) i) <= 1) /\
  reachable 2 (mkGrid gridSideCount (mkVec (-110) (-110) (-110)) (/ 10))
    (fun _ => mkVec (1/2) 0 (-1))
    (stepSimulationNaive 2 1 (initSimulation 2 (fun _ => mkVec (1/2) 0 (-1)) [vzero; vzero] [] [])) /\
  Forall in_scene
    (s_pos (stepSimulationNaive 2 1 (initSimulation 2 (fun _ => mkVec (1/2) 0 (-1)) [vzero; vzero] [] []))).
Proof.
  assert (Hr : forall i : Z, -1 <= vx ((fun _ => mkVec (1/2) 0 (-1)) i) <= 1 /\
                 -1 <= vy ((fun _ => mkVec (1/2) 0 (-1)) i) <= 1 /\
                 -1 <= vz ((fun _ => mkVec (1/2) 0 (-1)) i) <= 1)
    by (intros i; simpl; lra).
  assert (Hreach : reachable 2 (mkGrid gridSideCount (mkVec (-110) (-110) (-110)) (/ 10))
    (fun _ => mkVec (1/2) 0 (-1))
    (stepSimulationNaive 2 1 (initSimulation 2 (fun _ => mkVec (1/2) 0 (-1)) [vzero; vzero] [] [])))
    by (apply reach_naive; apply reach_init).
  split; [exact Hr|]. split; [exact Hreach|].
  exact (reachable_positions_in_scene _ _ _ _ Hr Hreach).
Defined.

Lemma Int_part_eq (r : R) (z : Z) : IZR z <= r < IZR z + 1 -> Int_part r = z.
Proof.
  intros [H1 H2]. unfold Int_part.
  rewrite <- (tech_up r (z + 1)); [lia| |]; rewrite plus_IZR; lra.
Qed.

Lemma Int_part_IZR (z : Z) : Int_part (IZR z) = z.
Proof. apply Int_part_eq. lra. Qed.

Lemma gridIndex3Dto1D_OOB_iff (x y z res : Z) :
  gridIndex3Dto1D x y z res = gridOOB <->
  ~ ((0 <= x < res) /\ (0 <= y < res) /\ (0 <= z < res))%Z.
Proof.
  unfold gridIndex3Dto1D, gridOOB.
  destruct ((x <? 0) || (res <=? x) || (y <? 0) || (res <=? y) || (z <? 0) || (res <=? z))%Z
    eqn:Hb.
  - repeat rewrite orb_true_iff in Hb. rewrite Z.ltb_lt, Z.leb_le in *.
    split; [intros _|reflexivity].
    repeat rewrite Z.ltb_lt, Z.leb_le in Hb. lia.
  - repeat rewrite orb_false_iff in Hb. repeat rewrite Z.ltb_ge, Z.leb_gt in Hb.
    split; [|lia]. intros Heq. exfalso.
    assert (0 <= y * res)%Z by nia. assert (0 <= z * res * res)%Z by nia. lia.
Qed.

(** C6.  [posToGrid] floors [(pos - gridMin) * inverseCellWidth] per axis
    and pulls a coordinate equal to the side count back to [side - 1], so a
    position at [gridMin + side * cellWidth] lands in the last cell of that
    axis; [gridIndex3Dto1D] is [x + y * side + z * side^2] and returns the
    sentinel [gridOOB] exactly when a coordinate is negative or [>= side];
    [posToGridIndex] therefore returns [gridOOB] exactly when a coordinate
    produced by [posToGrid] is out of range. *)
Theorem posToGrid_floor_backoff_index :
  (forall p m inv res,
     let f := Int_part ((p - m) * inv) in
     f <> res -> axisToGrid p m inv res = f /\ IZR f <= (p - m) * inv < IZR f + 1) /\
  (forall p m inv res,
     Int_part ((p - m) * inv) = res -> axisToGrid p m inv res = (res - 1)%Z) /\
  (forall m w res, 0 < w -> axisToGrid (m + IZR res * w) m (/ w) res = (res - 1)%Z) /\
  (forall x y z res, (0 <= x < res)%Z -> (0 <= y < res)%Z -> (0 <= z < res)%Z ->
     gridIndex3Dto1D x y z res = (x + y * res + z * res * res)%Z) /\
  (forall x y z res, gridIndex3Dto1D x y z res = gridOOB <->
     ~ ((0 <= x < res) /\ (0 <= y < res) /\ (0 <= z < res))%Z) /\
  (forall pos m inv res,
     let '(x, y, z) := posToGrid pos m inv res in
     posToGridIndex pos m inv res = gridOOB <->
     ~ ((0 <= x < res) /\ (0 <= y < res) /\ (0 <= z < res))%Z).
Proof.
  split.
  { intros p m inv res f Hf. unfold axisToGrid. fold f.
    apply Z.eqb_neq in Hf. rewrite Hf. split; [reflexivity|].
    destruct (base_Int_part ((p - m) * inv)). fold f in H, H0. lra. }
  split.
  { intros p m inv res Hf. unfold axisToGrid. rewrite Hf, Z.eqb_refl. reflexivity. }
  split.
  { intros m w res Hw. unfold axisToGrid.
    replace ((m + IZR res * w - m) * / w) with (IZR res) by (field; lra).
    rewrite Int_part_IZR, Z.eqb_refl. reflexivity. }
  split.
  { intros x y z res Hx Hy Hz. unfold gridIndex3Dto1D.
    replace ((x <? 0) || (res <=? x) || (y <? 0) || (res <=? y) || (z <? 0) || (res <=? z))%Z
      with false; [reflexivity|].
    symmetry. repeat rewrite orb_false_iff. repeat rewrite Z.ltb_ge, Z.leb_gt. lia. }
  split; [exact gridIndex3Dto1D_OOB_iff|].
  intros pos m inv res. unfold posToGridIndex.
  destruct (posToGrid pos m inv res) as [[x y] z].
  apply gridIndex3Dto1D_OOB_iff.
Qed.

Lemma vec_is_zero_true (u : vec3) :
  vec_is_zero u = true <-> vx u = 0 /\ vy u = 0 /\ vz u = 0.
Proof.
  unfold vec_is_zero.
  destruct (Req_dec_T (vx u) 0), (Req_dec_T (vy u) 0), (Req_dec_T (vz u) 0);
    split; intros H; try discriminate; try tauto; reflexivity.
Qed.

Lemma vdot_nonneg (u : vec3) : 0 <= vdot u u.
Proof. unfold vdot. nra. Qed.

Lemma vlength_pos (u : vec3) : vec_is_zero u = false -> 0 < vlength u.
Proof.
  intros Hz. unfold vlength. apply sqrt_lt_R0.
  assert (Hn : ~ (vx u = 0 /\ vy u = 0 /\ vz u = 0))
    by (rewrite <- vec_is_zero_true; congruence).
  unfold vdot.
  destruct (Req_dec_T (vx u) 0); [destruct (Req_dec_T (vy u) 0);
    [destruct (Req_dec_T (vz u) 0)|]|].
  - tauto.
  - assert (0 < vz u * vz u) by (apply Rsqr_pos_lt; assumption). nra.
  - assert (0 < vy u * vy u) by (apply Rsqr_pos_lt; assumption). nra.
  - assert (0 < vx u * vx u) by (apply Rsqr_pos_lt; assumption). nra.
Qed.

Lemma vlength_zero (u : vec3) : vec_is_zero u = true -> vlength u = 0.
Proof.
  intros Hz. apply vec_is_zero_true in Hz as (Hx & Hy & Hz).
  unfold vlength, vdot. rewrite Hx, Hy, Hz. replace (0 * 0 + 0 * 0 + 0 * 0) with 0 by ring.
  apply sqrt_0.
Qed.

Lemma updateVelocity_zero (v a : vec3) :
  vec_is_zero (vadd v a) = true -> updateVelocity v a = vzero.
Proof.
  intros Hz. unfold updateVelocity. rewrite Hz. vec_eq; ring.
Qed.

Lemma updateVelocity_small (v a : vec3) :
  vlength (vadd v a) <= maxSpeed -> updateVelocity v a = vadd v a.
Proof.
  intros Hs. unfold updateVelocity.
  set (u := vadd v a) in *. clearbody u.
  destruct (vec_is_zero u) eqn:Hz.
  - pose proof Hz as Hz'. apply vec_is_zero_true in Hz' as (Hx & Hy & Hz').
    vec_eq; rewrite ?Hx, ?Hy, ?Hz'; ring.
  - pose proof (vlength_pos u Hz) as HL.
    rewrite Rmin_left by exact Hs.
    unfold glm_normalize. fold (vlength u).
    vec_eq; field; lra.
Qed.

Lemma updateVelocity_large (v a : vec3) :
  maxSpeed < vlength (vadd v a) ->
  updateVelocity v a = vscale (vadd v a) (maxSpeed / vlength (vadd v a)) /\
  vlength (updateVelocity v a) = maxSpeed.
Proof.
  intros Hs. unfold updateVelocity.
  set (u := vadd v a) in *. clearbody u.
  destruct (vec_is_zero u) eqn:Hz.
  { rewrite (vlength_zero u Hz) in Hs. unfold maxSpeed in Hs. lra. }
  pose proof (vlength_pos u Hz) as HL.
  rewrite Rmin_right by lra.
  unfold glm_normalize. fold (vlength u).
  assert (Hsq : vlength u * vlength u = vx u * vx u + vy u * vy u + vz u * vz u)
    by (unfold vlength; rewrite sqrt_sqrt by apply vdot_nonneg; reflexivity).
  split.
  - vec_eq; unfold maxSpeed; field; lra.
  - unfold vlength at 1, vdot, maxSpeed; simpl.
    replace (vx u * / vlength u * 1 * (vx u * / vlength u * 1) +
             vy u * / vlength u * 1 * (vy u * / vlength u * 1) +
             vz u * / vlength u * 1 * (vz u * / vlength u * 1))
      with ((vx u * vx u + vy u * vy u + vz u * vz u) / (vlength u * vlength u))
      by (field; lra).
    rewrite <- Hsq. rewrite Rdiv_diag by nra. apply sqrt_1.
Qed.

(** C4.  [updateVelocities] stores [vel1 + acceleration] clamped to
    [maxSpeed = 1]: above [maxSpeed] the result is the sum scaled by the
    positive factor [maxSpeed / |sum|] and has length exactly [maxSpeed];
    at or below [maxSpeed] it is the sum; the zero sum gives the zero
    vector. *)
Theorem updateVelocity_clamps :
  maxSpeed = 1 /\
  forall v a,
    let u := vadd v a in
    (maxSpeed < vlength u ->
       0 < maxSpeed / vlength u /\
       updateVelocity v a = vscale u (maxSpeed / vlength u) /\
       vlength (updateVelocity v a) = maxSpeed) /\
    (vlength u <= maxSpeed -> updateVelocity v a = u) /\
    (u = vzero -> updateVelocity v a = vzero).
Proof.
  split; [reflexivity|].
  intros v a u. split; [|split].
  - intros Hs. pose proof (updateVelocity_large v a Hs) as [H1 H2].
    split; [|split; assumption].
    unfold maxSpeed in *. apply Rdiv_lt_0_compat; lra.
  - apply updateVelocity_small.
  - intros Hu. apply updateVelocity_zero.
    apply vec_is_zero_true. fold u. rewrite Hu. simpl. auto.
Qed.

(** ** The rule loop against the closed form *)

Lemma fold_rule_body (thisPos : vec3) (self : Z) (pos vel : list vec3) (l : list Z)
    (a : rule_acc) :
  let others := filter (fun b => negb (b =? self)%Z) l in
  let n1 := filter (within pos thisPos rule1Distance) others in
  let n2 := filter (within pos thisPos rule2Distance) others in
  let n3 := filter (within pos thisPos rule3Distance) others in
  fold_left (fun a b =>
      if (b =? self)%Z then a else rule_body thisPos (nthV pos b) (nthV vel b) a) l a =
  mkAcc (neighborCount a + length n1)
        (vadd (center a) (vsum (map (nthV pos) n1)))
        (vsub (separate a) (vsum (map (fun b => vsub (nthV pos b) thisPos) n2)))
        (vadd (cohesion a) (vsum (map (nthV vel) n3))).
Proof.
  revert a; induction l as [|b l IH]; intros a; simpl.
  - destruct a as [c ce se co]; simpl. f_equal; try lia; vec_eq; ring.
  - destruct (b =? self)%Z eqn:Hb; simpl.
    + apply IH.
    + rewrite IH. unfold rule_body, within.
      destruct a as [c ce se co].
      destruct (Rlt_dec (vlength (vsub (nthV pos b) thisPos)) rule1Distance);
      destruct (Rlt_dec (vlength (vsub (nthV pos b) thisPos)) rule2Distance);
      destruct (Rlt_dec (vlength (vsub (nthV pos b) thisPos)) rule3Distance);
      simpl; f_equal; try lia; vec_eq; ring.
Qed.

Lemma rule_finish_spec (self : Z) (l : list Z) (pos vel : list vec3) :
  let thisPos := nthV pos self in
  rule_finish thisPos
    (fold_left (fun a b =>
       if (b =? self)%Z then a else rule_body thisPos (nthV pos b) (nthV vel b) a) l acc0) =
  velocity_change_spec self l pos vel.
Proof.
  intros thisPos. rewrite fold_rule_body.
  unfold rule_finish, velocity_change_spec. fold thisPos. simpl.
  destruct (filter (within pos thisPos rule1Distance) (filter (fun b => negb (b =? self)%Z) l))
    as [|b n1] eqn:Hn1; simpl.
  - vec_eq; ring.
  - vec_eq; unfold Rdiv; ring.
Qed.

Lemma fold_boid_of (thisPos : vec3) (index : Z) (ib : option (list Z)) (pos vel : list vec3)
    (l : list Z) (a : rule_acc) :
  fold_left (fun a i =>
      let boid := boid_of ib i in
      if (boid =? index)%Z then a else rule_body thisPos (nthV pos boid) (nthV vel boid) a) l a =
  fold_left (fun a b =>
      if (b =? index)%Z then a else rule_body thisPos (nthV pos b) (nthV vel b) a)
    (map (boid_of ib) l) a.
Proof. revert a; induction l as [|i l IH]; intros a; simpl; [reflexivity|apply IH]. Qed.

Lemma fold_grids (thisPos : vec3) (index : Z) (ib : option (list Z)) (pos vel : list vec3)
    (grids starts ends : list Z) (a : rule_acc) :
  fold_left (fun a grid =>
     if (grid =? gridOOB)%Z then a
     else fold_left (fun a i =>
            let boid := boid_of ib i in
            if (boid =? index)%Z then a
            else rule_body thisPos (nthV pos boid) (nthV vel boid) a)
          (loop_range (nthZ starts grid) (nthZ ends grid)) a) grids a =
  fold_left (fun a b =>
      if (b =? index)%Z then a else rule_body thisPos (nthV pos b) (nthV vel b) a)
    (grid_boids grids starts ends ib) a.
Proof.
  revert a; induction grids as [|grid grids IH]; intros a; simpl; [reflexivity|].
  rewrite fold_left_app. destruct (grid =? gridOOB)%Z; simpl.
  - apply IH.
  - rewrite fold_boid_of. apply IH.
Qed.

(** C5.  Both rule evaluators return the cohesion term (average of the
    other candidates strictly within [rule1Distance], minus the own position,
    zero when there is none) times [rule1Scale], plus the negated sum of the
    offsets of the candidates strictly within [rule2Distance] times
    [rule2Scale], plus the sum of the velocities of the candidates strictly
    within [rule3Distance] times [rule3Scale]; distances are Euclidean and
    the agent's own index is dropped from the candidates.  The brute-force
    candidates are the indices [start .. end-1]; the grid candidates are the
    boids of the searched cells. *)
Theorem computeVelocityChange_three_rules :
  (forall start end_ iSelf pos vel,
     computeVelocityChange start end_ iSelf pos vel =
     velocity_change_spec iSelf (loop_range start end_) pos vel) /\
  (forall gridsToSearch starts ends index indexToBoid pos vel,
     computeVelocityChangeInGrids gridsToSearch starts ends index indexToBoid pos vel =
     velocity_change_spec index (grid_boids gridsToSearch starts ends indexToBoid) pos vel) /\
  (forall a b : vec3, vlength (vsub a b) = sqrt ((vx a - vx b)^2 + (vy a - vy b)^2 + (vz a - vz b)^2)).
Proof.
  split; [|split].
  - intros. apply rule_finish_spec.
  - intros. unfold computeVelocityChangeInGrids. rewrite fold_grids. apply rule_finish_spec.
  - intros a b. unfold vlength, vdot, vsub; simpl. f_equal; ring.
Qed.

(** ** The coherent reshuffle against the scattered indirection *)

Lemma NoDup_zrange (s : Z) (n : nat) : NoDup (zrange s n).
Proof.
  revert s; induction n as [|n IH]; intros s; simpl; constructor; [|apply IH].
  rewrite In_zrange. lia.
Qed.

Lemma kernComputeIndices_length (N : Z) (g : grid_params) (pos : list vec3) :
  length (kernComputeIndices N g pos) = Z.to_nat N.
Proof. unfold kernComputeIndices. rewrite length_map, zrange_length. reflexivity. Qed.

Lemma sort_result_facts (N : Z) (keys pai : list Z) :
  length keys = Z.to_nat N -> sort_by_key_result keys pai ->
  length pai = Z.to_nat N /\ NoDup pai /\ (forall x, In x pai -> (0 <= x < N)%Z).
Proof.
  intros Hl [Hp _]. rewrite Hl in Hp. split; [|split].
  - rewrite (Permutation_length Hp), zrange_length. reflexivity.
  - apply Permutation_NoDup with (l := zrange 0 (Z.to_nat N)); [symmetry; exact Hp|].
    apply NoDup_zrange.
  - intros x Hx. apply (Permutation_in _ Hp), In_zrange in Hx. lia.
Qed.

Lemma nthZ_In (l : list Z) (N k : Z) :
  length l = Z.to_nat N -> (0 <= k < N)%Z -> In (nthZ l k) l.
Proof. intros Hl Hk. unfold nthZ. apply nth_In. lia. Qed.

Lemma nthZ_inj (l : list Z) (N i k : Z) :
  NoDup l -> length l = Z.to_nat N -> (0 <= i < N)%Z -> (0 <= k < N)%Z ->
  nthZ l i = nthZ l k -> i = k.
Proof.
  intros Hnd Hl Hi Hk Heq. unfold nthZ in Heq.
  apply (proj1 (NoDup_nth l 0%Z) Hnd) in Heq; lia.
Qed.

Lemma kernSortPosVel_nth (pai : list Z) (N k : Z) (buf : list vec3) :
  (0 <= k < N)%Z -> nthV (kernSortPosVel pai N buf) k = nthV buf (nthZ pai k).
Proof. intros Hk. unfold kernSortPosVel. rewrite nthV_map_zrange by exact Hk. reflexivity. Qed.

Lemma fold_cell_coherent (N k : Z) (pai : list Z) (pos vel1 : list vec3) (thisPos : vec3)
    (l : list Z) (a : rule_acc) :
  NoDup pai -> length pai = Z.to_nat N -> (0 <= k < N)%Z ->
  (forall i, In i l -> (0 <= i < N)%Z) ->
  fold_left (fun a i =>
      let boid := boid_of None i in
      if (boid =? k)%Z then a
      else rule_body thisPos (nthV (kernSortPosVel pai N pos) boid)
             (nthV (kernSortPosVel pai N vel1) boid) a) l a =
  fold_left (fun a i =>
      let boid := boid_of (Some pai) i in
      if (boid =? nthZ pai k)%Z then a
      else rule_body thisPos (nthV pos boid) (nthV vel1 boid) a) l a.
Proof.
  intros Hnd Hl Hk. revert a; induction l as [|i l IH]; intros a Hr; simpl; [reflexivity|].
  assert (Hi : (0 <= i < N)%Z) by (apply Hr; left; reflexivity).
  assert (Heq : (i =? k)%Z = (nthZ pai i =? nthZ pai k)%Z).
  { destruct (Z.eqb_spec i k) as [->|Hne]; [symmetry; apply Z.eqb_refl|].
    symmetry. apply Z.eqb_neq. intros E. apply Hne. exact (nthZ_inj pai N i k Hnd Hl Hi Hk E). }
  rewrite Heq, !kernSortPosVel_nth by exact Hi.
  apply IH. intros j Hj. apply Hr. right. exact Hj.
Qed.

Lemma computeVelocityChangeInGrids_coherent (N k : Z) (pai : list Z) (pos vel1 : list vec3)
    (grids starts ends : list Z) :
  NoDup pai -> length pai = Z.to_nat N -> (0 <= k < N)%Z ->
  (forall c i, In i (loop_range (nthZ starts c) (nthZ ends c)) -> (0 <= i < N)%Z) ->
  computeVelocityChangeInGrids grids starts ends k None
    (kernSortPosVel pai N pos) (kernSortPosVel pai N vel1) =
  computeVelocityChangeInGrids grids starts ends (nthZ pai k) (Some pai) pos vel1.
Proof.
  intros Hnd Hl Hk Hr. unfold computeVelocityChangeInGrids.
  rewrite kernSortPosVel_nth by exact Hk. f_equal.
  generalize acc0. induction grids as [|grid grids IH]; intros a; simpl; [reflexivity|].
  destruct (grid =? gridOOB)%Z; [apply IH|].
  rewrite fold_cell_coherent by (auto; intros i Hi; exact (Hr grid i Hi)).
  apply IH.
Qed.

Lemma updateVelNeighborSearch_coherent (N k : Z) (g : grid_params) (pai : list Z)
    (pos vel1 : list vec3) (starts ends : list Z) :
  NoDup pai -> length pai = Z.to_nat N -> (0 <= k < N)%Z ->
  (forall c i, In i (loop_range (nthZ starts c) (nthZ ends c)) -> (0 <= i < N)%Z) ->
  updateVelNeighborSearch g starts ends None
    (kernSortPosVel pai N pos) (kernSortPosVel pai N vel1) k =
  updateVelNeighborSearch g starts ends (Some pai) pos vel1 (nthZ pai k).
Proof.
  intros Hnd Hl Hk Hr. unfold updateVelNeighborSearch.
  rewrite (computeVelocityChangeInGrids_coherent N k) by assumption.
  rewrite !kernSortPosVel_nth by exact Hk. reflexivity.
Qed.

Lemma combine_map {A B C : Type} (f : A -> B) (g : A -> C) (l : list A) :
  combine (map f l) (map g l) = map (fun x => (f x, g x)) l.
Proof. induction l as [|x l IH]; simpl; [reflexivity|]. rewrite IH. reflexivity. Qed.

Lemma map_nthZ_zrange (l : list Z) (N : Z) :
  length l = Z.to_nat N -> map (nthZ l) (zrange 0 (Z.to_nat N)) = l.
Proof.
  intros Hl. apply nth_ext with (d := 0%Z) (d' := 0%Z).
  - rewrite length_map, zrange_length. congruence.
  - intros n Hn. rewrite length_map, zrange_length in Hn.
    rewrite nth_map_zrange by exact Hn. unfold nthZ. f_equal. lia.
Qed.

(** C10.  For a sort outcome [pai] of the step's cell ids, and when the
    derived cell ranges stay inside [[0, N)] (every write of the derivation
    is such an index), a coherent-grid step leaves in slot [k] of [dev_pos]
    and [dev_vel1] the integrated state the scattered-grid step from the same
    state gives agent [particleArrayIndices[k]]; so the coherent buffers hold
    a permutation of the scattered step's agent states, in sorted-by-cell
    order, and both steps derive the same cell tables. *)
Theorem coherent_step_permutes_scattered_step :
  forall N g pai dt st,
    sort_by_key_result (kernComputeIndices N g (s_pos st)) pai ->
    (forall c i,
       In i (loop_range (nthZ (s_start (stepSimulationScatteredGrid N g pai dt st)) c)
                        (nthZ (s_end (stepSimulationScatteredGrid N g pai dt st)) c)) ->
       (0 <= i < N)%Z) ->
    let sc := stepSimulationScatteredGrid N g pai dt st in
    let co := stepSimulationCoherentGrid N g pai dt st in
    s_start co = s_start sc /\ s_end co = s_end sc /\
    (forall k, (0 <= k < N)%Z ->
       nthV (s_pos co) k = nthV (s_pos sc) (nthZ pai k) /\
       nthV (s_vel1 co) k = nthV (s_vel1 sc) (nthZ pai k)) /\
    Permutation (combine (s_pos co) (s_vel1 co)) (combine (s_pos sc) (s_vel1 sc)).
Proof.
  intros N g pai dt st Hsort Hrange sc co. subst sc co.
  pose proof (sort_result_facts N _ pai (kernComputeIndices_length N g (s_pos st)) Hsort)
    as (Hl & Hnd & Hin).
  destruct Hsort as [Hperm _]. rewrite kernComputeIndices_length in Hperm.
  unfold stepSimulationScatteredGrid, stepSimulationCoherentGrid in *.
  set (T := cell_tables N _ _ (s_start st) (s_end st)) in *.
  destruct T as [starts ends]. simpl in Hrange |- *.
  split; [reflexivity|]. split; [reflexivity|].
  unfold kernUpdatePos.
  set (Gc := updateVelNeighborSearch g starts ends None
               (kernSortPosVel pai N (s_pos st)) (kernSortPosVel pai N (s_vel1 st))).
  set (Gs := updateVelNeighborSearch g starts ends (Some pai) (s_pos st) (s_vel1 st)).
  set (Fc := fun index => updatePos dt (nthV (kernSortPosVel pai N (s_pos st)) index)
                            (nthV (map Gc (zrange 0 (Z.to_nat N))) index)).
  set (Fs := fun index => updatePos dt (nthV (s_pos st) index)
                            (nthV (map Gs (zrange 0 (Z.to_nat N))) index)).
  assert (Hslot : forall k, (0 <= k < N)%Z -> Fc k = Fs (nthZ pai k) /\ Gc k = Gs (nthZ pai k)).
  { intros k Hk.
    assert (Hpk : (0 <= nthZ pai k < N)%Z) by (apply Hin, (nthZ_In pai N k Hl Hk)).
    assert (HG : Gc k = Gs (nthZ pai k))
      by (apply updateVelNeighborSearch_coherent; assumption).
    split; [|exact HG]. unfold Fc, Fs.
    rewrite (nthV_map_zrange Gc N k Hk), (nthV_map_zrange Gs N (nthZ pai k) Hpk).
    rewrite kernSortPosVel_nth by exact Hk. rewrite HG. reflexivity. }
  split.
  - intros k Hk.
    assert (Hpk : (0 <= nthZ pai k < N)%Z) by (apply Hin, (nthZ_In pai N k Hl Hk)).
    rewrite (nthV_map_zrange Fc N k Hk), (nthV_map_zrange Fs N (nthZ pai k) Hpk).
    rewrite (nthV_map_zrange Gc N k Hk), (nthV_map_zrange Gs N (nthZ pai k) Hpk).
    exact (Hslot k Hk).
  - rewrite !combine_map.
    assert (Hm : map (fun x => (Fc x, Gc x)) (zrange 0 (Z.to_nat N)) =
                 map (fun x => (Fs x, Gs x)) (map (nthZ pai) (zrange 0 (Z.to_nat N)))).
    { rewrite map_map. apply map_ext_in. intros k Hk. apply In_zrange in Hk.
      destruct (Hslot k ltac:(lia)) as [-> ->]. reflexivity. }
    rewrite map_nthZ_zrange in Hm by exact Hl. rewrite Hm.
    apply Permutation_map. exact Hperm.
Qed.

(** * Further properties of kernel.cu *)

Open Scope Z_scope.

(** ** [hash] *)

Lemma u32_range (x : Z) : 0 <= u32 x < 2 ^ 32.
Proof. unfold u32. apply Z.mod_pos_bound. lia. Qed.

Lemma u32_id (x : Z) : 0 <= x < 2 ^ 32 -> u32 x = x.
Proof. intros. unfold u32. apply Z.mod_small. lia. Qed.

Lemma testbit_u32_high (x n : Z) : 32 <= n -> Z.testbit (u32 x) n = false.
Proof. intros Hn. unfold u32. apply Z.mod_pow2_bits_high. lia. Qed.

Lemma testbit_32_high (a n : Z) : 0 <= a < 2 ^ 32 -> 32 <= n -> Z.testbit a n = false.
Proof. intros Ha Hn. rewrite <- (u32_id a Ha). apply testbit_u32_high. exact Hn. Qed.

(** [a * m + c] modulo [2^32] with [m] odd is injective. *)
Lemma u32_affine_inj (m c a b : Z) :
  Z.gcd (2 ^ 32) m = 1 -> 0 <= a < 2 ^ 32 -> 0 <= b < 2 ^ 32 ->
  u32 (a * m + c) = u32 (b * m + c) -> a = b.
Proof.
  intros Hg Ha Hb Heq. unfold u32 in Heq.
  assert (Hd : (2 ^ 32 | m * (a - b))).
  { apply Z.mod_divide; [lia|].
    replace (m * (a - b)) with ((a * m + c) - (b * m + c)) by ring.
    rewrite Zminus_mod, Heq, Z.sub_diag. reflexivity. }
  apply Z.gauss in Hd; [|exact Hg].
  destruct Hd as [k Hk]. nia.
Qed.

(** [(a ^ c) ^ (a >> k)] modulo [2^32] with [k >= 1] is injective. *)
Lemma u32_xorshr_inj (c k a b : Z) :
  1 <= k -> 0 <= a < 2 ^ 32 -> 0 <= b < 2 ^ 32 ->
  u32 (Z.lxor (Z.lxor a c) (Z.shiftr a k)) = u32 (Z.lxor (Z.lxor b c) (Z.shiftr b k)) ->
  a = b.
Proof.
  intros Hk Ha Hb Heq.
  assert (Hbit : forall n, 0 <= n < 32 ->
            xorb (Z.testbit a n) (Z.testbit a (n + k)) =
            xorb (Z.testbit b n) (Z.testbit b (n + k))).
  { intros n Hn.
    assert (H := f_equal (fun x => Z.testbit x n) Heq). simpl in H. unfold u32 in H.
    rewrite !Z.mod_pow2_bits_low, !Z.lxor_spec, !Z.shiftr_spec in H by lia.
    destruct (Z.testbit a n), (Z.testbit b n), (Z.testbit c n),
      (Z.testbit a (n + k)), (Z.testbit b (n + k)); simpl in *; congruence. }
  assert (Hdown : forall m : nat, forall n, 32 - Z.of_nat m <= n -> Z.testbit a n = Z.testbit b n).
  { induction m as [|m IH]; intros n Hn.
    - destruct (Z_lt_le_dec n 32).
      + lia.
      + rewrite !testbit_32_high by lia. reflexivity.
    - destruct (Z_le_gt_dec (32 - Z.of_nat m) n) as [Hle|Hgt]; [apply IH; exact Hle|].
      destruct (Z_lt_le_dec n 0) as [Hneg|Hpos].
      + rewrite !Z.testbit_neg_r by lia. reflexivity.
      + assert (Hn2 : n = 31 - Z.of_nat m) by lia.
        specialize (Hbit n ltac:(lia)). rewrite (IH (n + k)) in Hbit by lia.
        destruct (Z.testbit a n), (Z.testbit b n), (Z.testbit b (n + k)); simpl in *; congruence. }
  apply Z.bits_inj'. intros n Hn. apply (Hdown 32%nat). lia.
Qed.

Lemma low_bits_mod (a b n : Z) :
  0 <= n -> (forall j, 0 <= j < n -> Z.testbit a j = Z.testbit b j) ->
  a mod 2 ^ n = b mod 2 ^ n.
Proof.
  intros Hn Hj. apply Z.bits_inj'. intros m Hm.
  destruct (Z_lt_le_dec m n).
  - rewrite !Z.mod_pow2_bits_low by lia. apply Hj. lia.
  - rewrite !Z.mod_pow2_bits_high by lia. reflexivity.
Qed.

(** Bit [n] of [a + c] and of [a] differ by a carry that depends on the
    bits of [a] below [n] only. *)
Lemma testbit_add_carry (a b c n : Z) :
  0 <= n -> a mod 2 ^ n = b mod 2 ^ n ->
  Z.testbit (a + c) n = Z.testbit (b + c) n -> Z.testbit a n = Z.testbit b n.
Proof.
  intros Hn Hab Hc.
  assert (Hp : 0 < 2 ^ n) by (apply Z.pow_pos_nonneg; lia).
  rewrite !Z.testbit_eqb in * by lia.
  set (r := a mod 2 ^ n) in *.
  assert (Ea : a = 2 ^ n * (a / 2 ^ n) + r) by (apply Z.div_mod; lia).
  assert (Eb : b = 2 ^ n * (b / 2 ^ n) + r) by (rewrite Hab; apply Z.div_mod; lia).
  assert (Ha' : (a + c) / 2 ^ n = a / 2 ^ n + (r + c) / 2 ^ n).
  { rewrite Ea at 1. rewrite <- Z.add_assoc, Z.mul_comm, Z.div_add_l by lia. reflexivity. }
  assert (Hb' : (b + c) / 2 ^ n = b / 2 ^ n + (r + c) / 2 ^ n).
  { rewrite Eb at 1. rewrite <- Z.add_assoc, Z.mul_comm, Z.div_add_l by lia. reflexivity. }
  rewrite Ha', Hb' in Hc. clear Ha' Hb' Ea Eb.
  set (qa := a / 2 ^ n) in *. set (qb := b / 2 ^ n) in *. set (t := (r + c) / 2 ^ n) in *.
  pose proof (Z.div_mod qa 2 ltac:(lia)). pose proof (Z.mod_pos_bound qa 2 ltac:(lia)).
  pose proof (Z.div_mod qb 2 ltac:(lia)). pose proof (Z.mod_pos_bound qb 2 ltac:(lia)).
  pose proof (Z.div_mod (qa + t) 2 ltac:(lia)). pose proof (Z.mod_pos_bound (qa + t) 2 ltac:(lia)).
  pose proof (Z.div_mod (qb + t) 2 ltac:(lia)). pose proof (Z.mod_pos_bound (qb + t) 2 ltac:(lia)).
  destruct ((qa + t) mod 2 =? 1) eqn:E1, ((qb + t) mod 2 =? 1) eqn:E2; try discriminate;
  destruct (qa mod 2 =? 1) eqn:E3, (qb mod 2 =? 1) eqn:E4; try reflexivity;
  rewrite ?Z.eqb_eq, ?Z.eqb_neq in *; exfalso; lia.
Qed.

(** [(a + c) ^ (a << k)] modulo [2^32] with [k >= 1] is injective. *)
Lemma u32_addxorshl_inj (c k a b : Z) :
  1 <= k -> 0 <= a < 2 ^ 32 -> 0 <= b < 2 ^ 32 ->
  u32 (Z.lxor (a + c) (Z.shiftl a k)) = u32 (Z.lxor (b + c) (Z.shiftl b k)) ->
  a = b.
Proof.
  intros Hk Ha Hb Heq.
  assert (Hup : forall m : nat, forall j, 0 <= j < Z.of_nat m -> j < 32 ->
            Z.testbit a j = Z.testbit b j).
  { induction m as [|m IH]; intros j Hj Hj32; [lia|].
    destruct (Z_lt_le_dec j (Z.of_nat m)) as [Hlt|Hge]; [apply IH; lia|].
    assert (Hjm : j = Z.of_nat m) by lia.
    apply (testbit_add_carry a b c j); [lia| |].
    - apply low_bits_mod; [lia|]. intros i Hi. apply IH; lia.
    - assert (H := f_equal (fun x => Z.testbit x j) Heq). simpl in H. unfold u32 in H.
      rewrite !Z.mod_pow2_bits_low, !Z.lxor_spec in H by lia.
      destruct (Z_lt_le_dec j k).
      + rewrite !Z.shiftl_spec_low in H by lia.
        rewrite !xorb_false_r in H. exact H.
      + rewrite !Z.shiftl_spec in H by lia.
        rewrite (IH (j - k)) in H by lia.
        destruct (Z.testbit (a + c) j), (Z.testbit (b + c) j), (Z.testbit b (j - k));
          simpl in *; congruence. }
  apply Z.bits_inj'. intros n Hn.
  destruct (Z_lt_le_dec n 32).
  - apply (Hup 32%nat); lia.
  - rewrite !testbit_32_high by lia. reflexivity.
Qed.

Lemma add_shl_affine (a c k : Z) :
  0 <= k -> (a + c) + Z.shiftl a k = a * (1 + 2 ^ k) + c.
Proof. intros Hk. rewrite Z.shiftl_mul_pow2 by exact Hk. ring. Qed.

Lemma u32_add_shl_inj (c k a b : Z) :
  0 <= k -> Z.gcd (2 ^ 32) (1 + 2 ^ k) = 1 -> 0 <= a < 2 ^ 32 -> 0 <= b < 2 ^ 32 ->
  u32 ((a + c) + Z.shiftl a k) = u32 ((b + c) + Z.shiftl b k) -> a = b.
Proof.
  intros Hk Hg Ha Hb Heq. rewrite !add_shl_affine in Heq by exact Hk.
  exact (u32_affine_inj _ _ _ _ Hg Ha Hb Heq).
Qed.

Lemma hash_stages (a : Z) :
  hash a = hash_step6 (hash_step5 (hash_step4 (hash_step3 (hash_step2 (hash_step1 a))))).
Proof. reflexivity. Qed.

Ltac hash_step_inj L :=
  let Ha := fresh in let Hb := fresh in let E := fresh in
  intros Ha Hb E; eapply L; [..|exact E]; first [assumption | lia | reflexivity].

Lemma hash_step1_inj (a b : Z) :
  0 <= a < 2 ^ 32 -> 0 <= b < 2 ^ 32 -> hash_step1 a = hash_step1 b -> a = b.
Proof. unfold hash_step1. hash_step_inj u32_add_shl_inj. Qed.

Lemma hash_step2_inj (a b : Z) :
  0 <= a < 2 ^ 32 -> 0 <= b < 2 ^ 32 -> hash_step2 a = hash_step2 b -> a = b.
Proof. unfold hash_step2. hash_step_inj u32_xorshr_inj. Qed.

Lemma hash_step3_inj (a b : Z) :
  0 <= a < 2 ^ 32 -> 0 <= b < 2 ^ 32 -> hash_step3 a = hash_step3 b -> a = b.
Proof. unfold hash_step3. hash_step_inj u32_add_shl_inj. Qed.

Lemma hash_step4_inj (a b : Z) :
  0 <= a < 2 ^ 32 -> 0 <= b < 2 ^ 32 -> hash_step4 a = hash_step4 b -> a = b.
Proof. unfold hash_step4. hash_step_inj u32_addxorshl_inj. Qed.

Lemma hash_step5_inj (a b : Z) :
  0 <= a < 2 ^ 32 -> 0 <= b < 2 ^ 32 -> hash_step5 a = hash_step5 b -> a = b.
Proof. unfold hash_step5. hash_step_inj u32_add_shl_inj. Qed.

Lemma hash_step6_inj (a b : Z) :
  0 <= a < 2 ^ 32 -> 0 <= b < 2 ^ 32 -> hash_step6 a = hash_step6 b -> a = b.
Proof. unfold hash_step6. hash_step_inj u32_xorshr_inj. Qed.

Lemma hash_inj_u32 (a b : Z) :
  0 <= a < 2 ^ 32 -> 0 <= b < 2 ^ 32 -> hash a = hash b -> a = b.
Proof.
  intros Ha Hb Heq. rewrite !hash_stages in Heq.
  apply hash_step6_inj in Heq; [|apply u32_range|apply u32_range].
  apply hash_step5_inj in Heq; [|apply u32_range|apply u32_range].
  apply hash_step4_inj in Heq; [|apply u32_range|apply u32_range].
  apply hash_step3_inj in Heq; [|apply u32_range|apply u32_range].
  apply hash_step2_inj in Heq; [|apply u32_range|apply u32_range].
  apply hash_step1_inj in Heq; [|exact Ha|exact Hb].
  exact Heq.
Qed.

(** X1.  [hash] maps every input into [[0, 2^32)] and is injective on
    [unsigned int] inputs: the six mixing steps are each invertible modulo
    [2^32]. *)
Theorem hash_u32_injective :
  (forall a, 0 <= hash a < 2 ^ 32) /\
  (forall a b, 0 <= a < 2 ^ 32 -> 0 <= b < 2 ^ 32 -> hash a = hash b -> a = b).
Proof.
  split.
  - intros a. rewrite hash_stages. apply u32_range.
  - exact hash_inj_u32.
Qed.

(** ** Integer buffers and [kernResetIntBuffer] *)

Lemma length_upd {A : Type} (l : list A) (n : nat) (v : A) : length (upd l n v) = length l.
Proof. revert n; induction l as [|h t IH]; intros [|n]; simpl; auto. Qed.

Lemma length_storeZ {A : Type} (l : list A) (i : Z) (v : A) : length (storeZ l i v) = length l.
Proof. unfold storeZ. destruct (i <? 0); [reflexivity|apply length_upd]. Qed.

Lemma nth_upd {A : Type} (l : list A) (m n : nat) (v d : A) :
  nth n (upd l m v) d = if (Nat.eqb n m && Nat.ltb n (length l))%bool then v else nth n l d.
Proof.
  revert m n; induction l as [|h t IH]; intros m n; simpl.
  - destruct n; destruct (Nat.eqb _ m); reflexivity.
  - destruct m as [|m], n as [|n]; simpl; auto.
Qed.

Lemma nth_storeZ {A : Type} (l : list A) (i k : Z) (v d : A) :
  0 <= k ->
  nth (Z.to_nat k) (storeZ l i v) d =
  if (k =? i) && (k <? Z.of_nat (length l)) then v else nth (Z.to_nat k) l d.
Proof.
  intros Hk. unfold storeZ.
  destruct (i <? 0) eqn:Ei.
  - apply Z.ltb_lt in Ei. destruct (k =? i) eqn:E; [apply Z.eqb_eq in E; lia|reflexivity].
  - apply Z.ltb_ge in Ei. rewrite nth_upd.
    destruct (k =? i) eqn:E1, (Nat.eqb (Z.to_nat k) (Z.to_nat i)) eqn:E2,
      (k <? Z.of_nat (length l)) eqn:E3, (Nat.ltb (Z.to_nat k) (length l)) eqn:E4;
      rewrite ?Z.eqb_eq, ?Z.eqb_neq, ?Nat.eqb_eq, ?Nat.eqb_neq,
        ?Z.ltb_lt, ?Z.ltb_ge, ?Nat.ltb_lt, ?Nat.ltb_ge in *; simpl;
      try reflexivity; exfalso; lia.
Qed.

(** X6.  [kernResetIntBuffer] launched with [threads] threads and bound
    [N] keeps the buffer length and sets exactly the entries below both [N]
    and [threads] to [value]; the others keep their contents. *)
Theorem kernResetIntBuffer_entries :
  forall threads N buf value,
    length (kernResetIntBuffer threads N buf value) = length buf /\
    forall i, 0 <= i < Z.of_nat (length buf) ->
      nthZ (kernResetIntBuffer threads N buf value) i =
      if (i <? N) && (i <? threads) then value else nthZ buf i.
Proof.
  intros threads N buf value. unfold kernResetIntBuffer, nthZ.
  assert (G : forall n s b, 0 <= s ->
    length (fold_left (fun buf index => if index <? N then storeZ buf index value else buf)
              (zrange s n) b) = length b /\
    forall i, 0 <= i < Z.of_nat (length b) ->
      nth (Z.to_nat i) (fold_left (fun buf index => if index <? N then storeZ buf index value else buf)
              (zrange s n) b) 0 =
      if (i <? N) && (s <=? i) && (i <? s + Z.of_nat n) then value else nth (Z.to_nat i) b 0).
  { induction n as [|n IH]; intros s b Hs; cbn [zrange fold_left].
    - split; [reflexivity|]. intros i Hi.
      destruct (i <? N), (s <=? i) eqn:E2, (i <? s + Z.of_nat 0) eqn:E;
        rewrite ?Z.leb_le, ?Z.leb_gt, ?Z.ltb_lt, ?Z.ltb_ge in *; simpl;
        try reflexivity; exfalso; lia.
    - set (b1 := if s <? N then storeZ b s value else b).
      assert (L1 : length b1 = length b) by (unfold b1; destruct (s <? N); [apply length_storeZ|reflexivity]).
      destruct (IH (s + 1) b1 ltac:(lia)) as [IHl IHn].
      split; [rewrite IHl; exact L1|].
      intros i Hi. rewrite IHn by lia.
      unfold b1. destruct (s <? N) eqn:Es.
      + rewrite nth_storeZ by lia.
        destruct (i <? N) eqn:E1, (s + 1 <=? i) eqn:E2, (i <? s + 1 + Z.of_nat n) eqn:E3,
          (s <=? i) eqn:E4, (i <? s + Z.of_nat (S n)) eqn:E5, (i =? s) eqn:E6,
          (i <? Z.of_nat (length b)) eqn:E7;
          rewrite ?Z.ltb_lt, ?Z.ltb_ge, ?Z.leb_le, ?Z.leb_gt, ?Z.eqb_eq, ?Z.eqb_neq in *;
          simpl; try reflexivity; exfalso; lia.
      + destruct (i <? N) eqn:E1, (s + 1 <=? i) eqn:E2, (i <? s + 1 + Z.of_nat n) eqn:E3,
          (s <=? i) eqn:E4, (i <? s + Z.of_nat (S n)) eqn:E5, (i =? s) eqn:E6;
          rewrite ?Z.ltb_lt, ?Z.ltb_ge, ?Z.leb_le, ?Z.leb_gt, ?Z.eqb_eq, ?Z.eqb_neq in *;
          simpl; try reflexivity; exfalso; lia. }
  destruct (G (Z.to_nat threads) 0 buf ltac:(lia)) as [Gl Gn].
  split; [exact Gl|]. intros i Hi. rewrite Gn by exact Hi.
  destruct (i <? N) eqn:E1, (0 <=? i) eqn:E2, (i <? 0 + Z.of_nat (Z.to_nat threads)) eqn:E3,
    (i <? threads) eqn:E4;
    rewrite ?Z.ltb_lt, ?Z.ltb_ge, ?Z.leb_le, ?Z.leb_gt in *; simpl; try reflexivity; exfalso; lia.
Qed.

(** ** [kernIdentifyCellStartEnd] *)

Open Scope Z_scope.

Lemma identify_thread_split (N : Z) (keys s e : list Z) (i : Z) :
  identify_thread N keys (s, e) i =
  (store_opt s (start_write N keys i), store_opt e (end_write N keys i)).
Proof.
  unfold identify_thread, start_write, end_write.
  destruct (i <? N); [|reflexivity].
  destruct (i =? 0); [reflexivity|].
  destruct (i =? N - 1); destruct (negb _); reflexivity.
Qed.

Lemma kernIdentifyCellStartEnd_split (N : Z) (keys s e : list Z) :
  kernIdentifyCellStartEnd N keys s e =
  (fold_left store_opt (map (start_write N keys) (zrange 0 (Z.to_nat N))) s,
   fold_left store_opt (map (end_write N keys) (zrange 0 (Z.to_nat N))) e).
Proof.
  unfold kernIdentifyCellStartEnd. generalize (zrange 0 (Z.to_nat N)) as l.
  intros l; revert s e; induction l as [|i l IH]; intros s e; cbn [fold_left map]; [reflexivity|].
  rewrite identify_thread_split. apply IH.
Qed.

Lemma nth_upd_same {A : Type} (l : list A) (n : nat) (v d : A) :
  (n < length l)%nat -> nth n (upd l n v) d = v.
Proof.
  revert n; induction l as [|h t IH]; intros [|n] Hn; simpl in *; try lia; auto.
  apply IH. lia.
Qed.

Lemma nthZ_storeZ_same (l : list Z) (i v : Z) :
  0 <= i < Z.of_nat (length l) -> nthZ (storeZ l i v) i = v.
Proof.
  intros Hi. unfold storeZ, nthZ. destruct (i <? 0) eqn:E; [apply Z.ltb_lt in E; lia|].
  apply nth_upd_same. lia.
Qed.

Lemma fold_store_length (l : list (option (Z * Z))) (t : list Z) :
  length (fold_left store_opt l t) = length t.
Proof.
  revert t; induction l as [|[[c v]|] l IH]; intros t; simpl; rewrite ?IH; auto.
  apply length_storeZ.
Qed.

Lemma fold_store_unchanged (l : list (option (Z * Z))) (t : list Z) (c : Z) :
  0 <= c -> (forall c' v, In (Some (c', v)) l -> c' <> c) ->
  nthZ (fold_left store_opt l t) c = nthZ t c.
Proof.
  intros Hc; revert t; induction l as [|w l IH]; intros t Hw; simpl; [reflexivity|].
  rewrite IH by (intros c' v Hin; apply (Hw c' v); right; exact Hin).
  destruct w as [[c' v]|]; simpl; [|reflexivity].
  apply nthZ_storeZ_other; [exact Hc|].
  intros Heq. subst c'. apply (Hw c v); [left; reflexivity|reflexivity].
Qed.

Lemma fold_store_last (l1 l2 : list (option (Z * Z))) (t : list Z) (c v : Z) :
  0 <= c < Z.of_nat (length t) -> (forall c' v', In (Some (c', v')) l2 -> c' <> c) ->
  nthZ (fold_left store_opt (l1 ++ Some (c, v) :: l2) t) c = v.
Proof.
  intros Hc Hl2. rewrite fold_left_app. simpl.
  rewrite fold_store_unchanged by (lia || exact Hl2).
  apply nthZ_storeZ_same. rewrite fold_store_length. exact Hc.
Qed.

Lemma zrange_split (s : Z) (n k : nat) :
  (k < n)%nat ->
  zrange s n = zrange s k ++ (s + Z.of_nat k) :: zrange (s + Z.of_nat k + 1) (n - k - 1).
Proof.
  revert s n; induction k as [|k IH]; intros s n Hk.
  - destruct n as [|n]; [lia|]. simpl. rewrite Z.add_0_r. f_equal. f_equal. lia.
  - destruct n as [|n]; [lia|]. simpl. f_equal.
    rewrite (IH (s + 1) n) by lia. f_equal. f_equal; [lia|]. f_equal; lia.
Qed.

Lemma sorted_nth_le (keys : list Z) (i j : nat) :
  Sorted Z.le keys -> (i <= j < length keys)%nat -> nth i keys 0 <= nth j keys 0.
Proof.
  intros Hs. apply Sorted_StronglySorted in Hs; [|intros x y z; lia].
  revert i j; induction Hs as [|a l Hs IH Ha]; intros i j Hij; simpl in *; [lia|].
  destruct i as [|i], j as [|j]; try lia.
  - rewrite Forall_forall in Ha. apply Ha, nth_In. lia.
  - apply IH. lia.
Qed.

Lemma sorted_nthZ_le (keys : list Z) (i j : Z) :
  Sorted Z.le keys -> 0 <= i <= j -> j < Z.of_nat (length keys) ->
  nthZ keys i <= nthZ keys j.
Proof. intros Hs Hij Hj. unfold nthZ. apply sorted_nth_le; [exact Hs|lia]. Qed.

Lemma nthZ_in_keys (keys : list Z) (x : Z) :
  0 <= x < Z.of_nat (length keys) -> In (nthZ keys x) keys.
Proof. intros Hx. unfold nthZ. apply nth_In. lia. Qed.

(** A later cell change leads to a strictly larger key. *)
Lemma sorted_change_gt (keys : list Z) (i x : Z) :
  Sorted Z.le keys -> 0 <= i -> i < x < Z.of_nat (length keys) ->
  nthZ keys x <> nthZ keys (x - 1) -> nthZ keys i < nthZ keys x.
Proof.
  intros Hs Hi Hx Hne.
  pose proof (sorted_nthZ_le keys i (x - 1) Hs ltac:(lia) ltac:(lia)).
  pose proof (sorted_nthZ_le keys (x - 1) x Hs ltac:(lia) ltac:(lia)).
  lia.
Qed.

Lemma In_map_zrange_write (f : Z -> option (Z * Z)) (s : Z) (n : nat) (c v : Z) :
  In (Some (c, v)) (map f (zrange s n)) ->
  exists x, s <= x < s + Z.of_nat n /\ f x = Some (c, v).
Proof.
  intros H. apply in_map_iff in H as [x [Hx Hin]].
  apply In_zrange in Hin. exists x. split; assumption.
Qed.

(** X7.  On a sorted key array whose keys index the start table,
    [kernIdentifyCellStartEnd] leaves the start of every cell holding no
    key unchanged and sets the start of each occupied cell to the index of
    its first key. *)
Theorem kernIdentifyCellStartEnd_starts :
  forall keys starts ends,
    Sorted Z.le keys ->
    Forall (fun c => 0 <= c < Z.of_nat (length starts)) keys ->
    let N := Z.of_nat (length keys) in
    let starts' := fst (kernIdentifyCellStartEnd N keys starts ends) in
    (forall c, 0 <= c -> ~ In c keys -> nthZ starts' c = nthZ starts c) /\
    (forall i, 0 <= i < N -> (i = 0 \/ nthZ keys (i - 1) <> nthZ keys i) ->
       nthZ starts' (nthZ keys i) = i).
Proof.
  intros keys starts ends Hs Hk N starts'.
  unfold starts'. rewrite kernIdentifyCellStartEnd_split. simpl fst.
  split.
  - intros c Hc Hnin. apply fold_store_unchanged; [exact Hc|].
    intros c' v Hin ->. apply In_map_zrange_write in Hin as [x [Hx Hw]].
    unfold start_write in Hw.
    destruct (x <? N) eqn:E1; [|discriminate]. apply Z.ltb_lt in E1.
    apply Hnin.
    destruct (x =? 0); [|destruct (negb _)]; inversion Hw; subst;
      apply nthZ_in_keys; unfold N in *; lia.
  - intros i Hi Hfirst.
    rewrite (zrange_split 0 (Z.to_nat N) (Z.to_nat i)) by lia.
    rewrite map_app. simpl map.
    replace (Z.of_nat (Z.to_nat i)) with i by lia.
    assert (Hw : start_write N keys i = Some (nthZ keys i, i)).
    { unfold start_write. destruct (i <? N) eqn:E; [|apply Z.ltb_ge in E; lia].
      destruct (i =? 0) eqn:E0.
      - apply Z.eqb_eq in E0. subst i. reflexivity.
      - apply Z.eqb_neq in E0. destruct Hfirst as [|Hne]; [lia|].
        destruct (nthZ keys i =? nthZ keys (i - 1)) eqn:E2; [|reflexivity].
        apply Z.eqb_eq in E2. congruence. }
    rewrite Hw. apply fold_store_last.
    + rewrite Forall_forall in Hk. apply Hk, nthZ_in_keys. unfold N in *; lia.
    + intros c' v Hin Heq. apply In_map_zrange_write in Hin as [x [Hx Hwx]].
      unfold start_write in Hwx.
      destruct (x <? N) eqn:E1; [|discriminate]. apply Z.ltb_lt in E1.
      destruct (x =? 0) eqn:E0; [apply Z.eqb_eq in E0; lia|].
      destruct (nthZ keys x =? nthZ keys (x - 1)) eqn:E2; simpl in Hwx; [discriminate|].
      inversion Hwx; subst c' v. apply Z.eqb_neq in E2.
      pose proof (sorted_change_gt keys i x Hs ltac:(lia) ltac:(unfold N in *; lia) E2).
      lia.
Qed.

Lemma end_write_some (N : Z) (keys : list Z) (x c v : Z) :
  0 <= x -> end_write N keys x = Some (c, v) ->
  0 < x < N /\ v = x /\
  ((x = N - 1 /\ c = nthZ keys x) \/
   (x <> N - 1 /\ nthZ keys x <> nthZ keys (x - 1) /\ c = nthZ keys (x - 1))).
Proof.
  unfold end_write. intros Hx Hw.
  destruct (x <? N) eqn:E1; [|discriminate]. apply Z.ltb_lt in E1.
  destruct (x =? 0) eqn:E0; [discriminate|]. apply Z.eqb_neq in E0.
  destruct (x =? N - 1) eqn:E2.
  - inversion Hw; subst. apply Z.eqb_eq in E2. split; [|split]; [lia|reflexivity|left; auto].
  - apply Z.eqb_neq in E2.
    destruct (nthZ keys x =? nthZ keys (x - 1)) eqn:E3; simpl in Hw; [discriminate|].
    apply Z.eqb_neq in E3. inversion Hw; subst.
    split; [|split]; [lia|reflexivity|right; auto].
Qed.

(** X8.  On a sorted key array of length [N] whose keys index the end
    table, [kernIdentifyCellStartEnd] leaves the end of every cell holding
    no key unchanged; a cell change at index [i + 1 < N - 1] sets the end of
    the cell of key [i] to [i + 1]; a cell change at the last index [N - 1]
    leaves the end of the cell of key [N - 2] unchanged; the cell of the
    last key gets the end [N - 1]; with one key the end table is not
    written. *)
Theorem kernIdentifyCellStartEnd_ends :
  forall keys starts ends,
    Sorted Z.le keys ->
    Forall (fun c => 0 <= c < Z.of_nat (length ends)) keys ->
    let N := Z.of_nat (length keys) in
    let ends' := snd (kernIdentifyCellStartEnd N keys starts ends) in
    (forall c, 0 <= c -> ~ In c keys -> nthZ ends' c = nthZ ends c) /\
    (forall i, 0 <= i -> i + 2 < N -> nthZ keys i <> nthZ keys (i + 1) ->
       nthZ ends' (nthZ keys i) = i + 1) /\
    (2 <= N -> nthZ keys (N - 2) <> nthZ keys (N - 1) ->
       nthZ ends' (nthZ keys (N - 2)) = nthZ ends (nthZ keys (N - 2))) /\
    (2 <= N -> nthZ ends' (nthZ keys (N - 1)) = N - 1) /\
    (N = 1 -> ends' = ends).
Proof.
  intros keys starts ends Hs Hk N ends'.
  assert (Hkey : forall x, 0 <= x < N -> 0 <= nthZ keys x < Z.of_nat (length ends)).
  { intros x Hx. rewrite Forall_forall in Hk. apply Hk, nthZ_in_keys. unfold N in *; lia. }
  unfold ends'. rewrite kernIdentifyCellStartEnd_split. simpl snd.
  split; [|split; [|split; [|split]]].
  - intros c Hc Hnin. apply fold_store_unchanged; [exact Hc|].
    intros c' v Hin ->. apply In_map_zrange_write in Hin as [x [Hx Hw]].
    apply end_write_some in Hw; [|lia]; destruct Hw as (Hx' & _ & [[_ ->]|(_ & _ & ->)]);
      apply Hnin, nthZ_in_keys; unfold N in *; lia.
  - intros i Hi HiN Hne.
    assert (Hlt : nthZ keys i < nthZ keys (i + 1)).
    { pose proof (sorted_nthZ_le keys i (i + 1) Hs ltac:(lia) ltac:(unfold N in *; lia)). lia. }
    rewrite (zrange_split 0 (Z.to_nat N) (Z.to_nat (i + 1))) by lia.
    rewrite map_app. simpl map.
    replace (Z.of_nat (Z.to_nat (i + 1))) with (i + 1) by lia.
    assert (Hw : end_write N keys (i + 1) = Some (nthZ keys i, i + 1)).
    { unfold end_write.
      destruct (i + 1 <? N) eqn:E; [|apply Z.ltb_ge in E; lia].
      destruct (i + 1 =? 0) eqn:E0; [apply Z.eqb_eq in E0; lia|].
      destruct (i + 1 =? N - 1) eqn:E1; [apply Z.eqb_eq in E1; lia|].
      replace (i + 1 - 1) with i by lia.
      destruct (nthZ keys (i + 1) =? nthZ keys i) eqn:E2; [apply Z.eqb_eq in E2; lia|].
      reflexivity. }
    rewrite Hw. apply fold_store_last; [apply Hkey; lia|].
    intros c' v Hin Heq. apply In_map_zrange_write in Hin as [x [Hx Hwx]].
    apply end_write_some in Hwx; [|lia]; destruct Hwx as (Hx' & _ & [[Ex ->]|(_ & Hne' & ->)]).
    + pose proof (sorted_nthZ_le keys (i + 1) x Hs ltac:(lia) ltac:(unfold N in *; lia)). lia.
    + pose proof (sorted_nthZ_le keys (i + 1) (x - 1) Hs ltac:(lia) ltac:(unfold N in *; lia)). lia.
  - intros HN Hne. apply fold_store_unchanged; [pose proof (Hkey (N - 2) ltac:(lia)); lia|].
    intros c' v Hin Heq. apply In_map_zrange_write in Hin as [x [Hx Hwx]].
    apply end_write_some in Hwx; [|lia]; destruct Hwx as (Hx' & _ & [[Ex ->]|(Ex & Hne' & ->)]).
    + subst x. congruence.
    + pose proof (sorted_nthZ_le keys (x - 1) x Hs ltac:(lia) ltac:(unfold N in *; lia)).
      pose proof (sorted_nthZ_le keys x (N - 2) Hs ltac:(lia) ltac:(unfold N in *; lia)).
      lia.
  - intros HN.
    rewrite (zrange_split 0 (Z.to_nat N) (Z.to_nat (N - 1))) by lia.
    replace (Z.to_nat N - Z.to_nat (N - 1) - 1)%nat with 0%nat by lia.
    rewrite map_app. simpl map.
    replace (Z.of_nat (Z.to_nat (N - 1))) with (N - 1) by lia.
    assert (Hw : end_write N keys (N - 1) = Some (nthZ keys (N - 1), N - 1)).
    { unfold end_write.
      destruct (N - 1 <? N) eqn:E; [|apply Z.ltb_ge in E; lia].
      destruct (N - 1 =? 0) eqn:E0; [apply Z.eqb_eq in E0; lia|].
      rewrite Z.eqb_refl. reflexivity. }
    rewrite Hw. apply fold_store_last; [apply Hkey; lia|].
    intros c' v [].
  - intros HN. rewrite HN. reflexivity.
Qed.

(** ** The grid: [gridIndex3Dto1D], [gridsToSearch], [initSimulation] *)

Open Scope Z_scope.

Lemma gridIndex3Dto1D_cases (x y z r : Z) :
  ((0 <= x < r /\ 0 <= y < r /\ 0 <= z < r) /\
     gridIndex3Dto1D x y z r = x + y * r + z * r * r) \/
  (~ (0 <= x < r /\ 0 <= y < r /\ 0 <= z < r) /\ gridIndex3Dto1D x y z r = gridOOB).
Proof.
  unfold gridIndex3Dto1D.
  destruct (x <? 0) eqn:E1; destruct (r <=? x) eqn:E2; destruct (y <? 0) eqn:E3;
  destruct (r <=? y) eqn:E4; destruct (z <? 0) eqn:E5; destruct (r <=? z) eqn:E6;
  simpl; rewrite ?Z.ltb_lt, ?Z.ltb_ge, ?Z.leb_le, ?Z.leb_gt in *;
  first [left; split; [lia|reflexivity] | right; split; [lia|reflexivity]].
Qed.

Lemma gridIndex3Dto1D_inj (x y z x' y' z' r : Z) :
  0 <= x < r -> 0 <= y < r -> 0 <= z < r ->
  0 <= x' < r -> 0 <= y' < r -> 0 <= z' < r ->
  x + y * r + z * r * r = x' + y' * r + z' * r * r ->
  x = x' /\ y = y' /\ z = z'.
Proof.
  intros Hx Hy Hz Hx' Hy' Hz' H.
  assert (E : x + (y + z * r) * r = x' + (y' + z' * r) * r) by lia.
  assert (Hm := f_equal (fun t => t mod r) E). simpl in Hm.
  rewrite !Z.mod_add, !Z.mod_small in Hm by lia.
  assert (Hd := f_equal (fun t => t / r) E). simpl in Hd.
  rewrite !Z.div_add, !Z.div_small in Hd by lia.
  assert (Hm2 := f_equal (fun t => t mod r) Hd). simpl in Hm2.
  rewrite !Z.mod_add, !Z.mod_small in Hm2 by lia.
  assert (Hd2 := f_equal (fun t => t / r) Hd). simpl in Hd2.
  rewrite !Z.div_add, !Z.div_small in Hd2 by lia.
  lia.
Qed.

(** X2.  [gridIndex3Dto1D] sends the cells inside the grid to ids in
    [[0, res^3)], the size of the cell tables, and distinct cells to
    distinct ids. *)
Theorem gridIndex3Dto1D_in_range_injective :
  forall x y z x' y' z' r,
    0 <= x < r -> 0 <= y < r -> 0 <= z < r ->
    0 <= x' < r -> 0 <= y' < r -> 0 <= z' < r ->
    0 <= gridIndex3Dto1D x y z r < r * r * r /\
    (gridIndex3Dto1D x y z r = gridIndex3Dto1D x' y' z' r -> x = x' /\ y = y' /\ z = z').
Proof.
  intros x y z x' y' z' r Hx Hy Hz Hx' Hy' Hz'.
  destruct (gridIndex3Dto1D_cases x y z r) as [[_ E1]|[Hn _]]; [|exfalso; tauto].
  destruct (gridIndex3Dto1D_cases x' y' z' r) as [[_ E2]|[Hn _]]; [|exfalso; tauto].
  rewrite E1, E2. split; [nia|].
  apply gridIndex3Dto1D_inj; assumption.
Qed.

Lemma gridsToSearch_slots (gx gy gz r : Z) :
  gridsToSearch (gx, gy, gz) r = map (search_slot gx gy gz r) (zrange 0 27).
Proof. reflexivity. Qed.

Lemma nthZ_map_zrange (f : Z -> Z) (N k : Z) :
  0 <= k < N -> nthZ (map f (zrange 0 (Z.to_nat N))) k = f k.
Proof. intros Hk. unfold nthZ. rewrite nth_map_zrange by lia. f_equal; lia. Qed.

Lemma In_gridsToSearch (gx gy gz dx dy dz r : Z) :
  -1 <= dx <= 1 -> -1 <= dy <= 1 -> -1 <= dz <= 1 ->
  In (gridIndex3Dto1D (gx + dx) (gy + dy) (gz + dz) r) (gridsToSearch (gx, gy, gz) r).
Proof.
  intros Hx Hy Hz. rewrite gridsToSearch_slots. apply in_map_iff.
  exists ((dx + 1) + 3 * (dy + 1) + 9 * (dz + 1)). split.
  - assert (Dx : dx = -1 \/ dx = 0 \/ dx = 1) by lia.
    assert (Dy : dy = -1 \/ dy = 0 \/ dy = 1) by lia.
    assert (Dz : dz = -1 \/ dz = 0 \/ dz = 1) by lia.
    destruct Dx as [->|[->| ->]]; destruct Dy as [->|[->| ->]]; destruct Dz as [->|[->| ->]];
      reflexivity.
  - apply In_zrange. lia.
Qed.

(** X3.  Two different slots of the [gridsToSearch] array of
    [updateVelNeighborSearch] never hold the same valid cell id: a repeated
    value is the sentinel [gridOOB], so no cell is visited twice. *)
Theorem gridsToSearch_no_repeat :
  forall gx gy gz r i j,
    0 <= i < 27 -> 0 <= j < 27 -> i <> j ->
    nthZ (gridsToSearch (gx, gy, gz) r) i = nthZ (gridsToSearch (gx, gy, gz) r) j ->
    nthZ (gridsToSearch (gx, gy, gz) r) i = gridOOB.
Proof.
  intros gx gy gz r i j Hi Hj Hij.
  rewrite gridsToSearch_slots.
  change 27%nat with (Z.to_nat 27).
  rewrite !nthZ_map_zrange by lia. unfold search_slot.
  destruct (gridIndex3Dto1D_cases (gx + (i mod 3 - 1)) (gy + (i / 3 mod 3 - 1)) (gz + (i / 9 - 1)) r)
    as [[Hr1 E1]|[_ E1]]; [|intros _; exact E1].
  destruct (gridIndex3Dto1D_cases (gx + (j mod 3 - 1)) (gy + (j / 3 mod 3 - 1)) (gz + (j / 9 - 1)) r)
    as [[Hr2 E2]|[_ E2]]; rewrite E1, E2; intros Heq.
  - exfalso. apply gridIndex3Dto1D_inj in Heq; try lia.
    destruct Heq as (Ex & Ey & Ez).
    pose proof (Z.div_mod i 3 ltac:(lia)). pose proof (Z.div_mod j 3 ltac:(lia)).
    pose proof (Z.div_mod (i / 3) 3 ltac:(lia)). pose proof (Z.div_mod (j / 3) 3 ltac:(lia)).
    rewrite Z.div_div in * by lia. simpl (3 * 3) in *.
    lia.
  - unfold gridOOB in Heq. nia.
Qed.
Open Scope R_scope.

Lemma Int_part_bounds (r : R) : IZR (Int_part r) <= r < IZR (Int_part r) + 1.
Proof. pose proof (base_Int_part r). lra. Qed.

Lemma axisToGrid_min (p m inv : R) (res : Z) :
  0 <= (p - m) * inv <= IZR res ->
  axisToGrid p m inv res = Z.min (Int_part ((p - m) * inv)) (res - 1).
Proof.
  intros Hu. unfold axisToGrid.
  pose proof (Int_part_bounds ((p - m) * inv)) as [H1 H2].
  assert (Hle : (Int_part ((p - m) * inv) <= res)%Z) by (apply le_IZR; lra).
  destruct (Int_part ((p - m) * inv) =? res)%Z eqn:E.
  - apply Z.eqb_eq in E. lia.
  - apply Z.eqb_neq in E. lia.
Qed.

Lemma axisToGrid_close (p q m inv : R) (res : Z) :
  0 < inv -> (1 <= res)%Z ->
  m <= p <= m + IZR res / inv -> m <= q <= m + IZR res / inv -> Rabs (p - q) < / inv ->
  (0 <= axisToGrid p m inv res < res)%Z /\ (0 <= axisToGrid q m inv res < res)%Z /\
  (-1 <= axisToGrid q m inv res - axisToGrid p m inv res <= 1)%Z.
Proof.
  intros Hinv Hres Hp Hq Hpq.
  assert (Bp : 0 <= (p - m) * inv <= IZR res).
  { split; [apply Rmult_le_pos; lra|].
    apply (Rmult_le_reg_r (/ inv)); [apply Rinv_0_lt_compat; lra|].
    rewrite Rmult_assoc, Rinv_r, Rmult_1_r by lra. unfold Rdiv in Hp. lra. }
  assert (Bq : 0 <= (q - m) * inv <= IZR res).
  { split; [apply Rmult_le_pos; lra|].
    apply (Rmult_le_reg_r (/ inv)); [apply Rinv_0_lt_compat; lra|].
    rewrite Rmult_assoc, Rinv_r, Rmult_1_r by lra. unfold Rdiv in Hq. lra. }
  assert (Duv : Rabs ((p - m) * inv - (q - m) * inv) < 1).
  { replace ((p - m) * inv - (q - m) * inv) with ((p - q) * inv) by ring.
    rewrite Rabs_mult, (Rabs_right inv) by lra.
    apply (Rmult_lt_compat_r inv) in Hpq; [|lra].
    rewrite Rinv_l in Hpq by lra. exact Hpq. }
  rewrite !axisToGrid_min by assumption.
  set (u := (p - m) * inv) in *. set (v := (q - m) * inv) in *.
  pose proof (Int_part_bounds u) as [U1 U2]. pose proof (Int_part_bounds v) as [V1 V2].
  apply Rabs_def2 in Duv as [D1 D2].
  assert (I1 : (-1 < Int_part u)%Z) by (apply lt_IZR; lra).
  assert (I2 : (-1 < Int_part v)%Z) by (apply lt_IZR; lra).
  assert (I3 : (Int_part v - Int_part u < 2)%Z) by (apply lt_IZR; rewrite minus_IZR; lra).
  assert (I4 : (Int_part u - Int_part v < 2)%Z) by (apply lt_IZR; rewrite minus_IZR; lra).
  lia.
Qed.

Lemma Rabs_vx_le (a : vec3) : Rabs (vx a) <= vlength a.
Proof.
  unfold vlength, vdot. rewrite <- sqrt_Rsqr_abs. apply sqrt_le_1_alt.
  unfold Rsqr. nra.
Qed.
Lemma Rabs_vy_le (a : vec3) : Rabs (vy a) <= vlength a.
Proof.
  unfold vlength, vdot. rewrite <- sqrt_Rsqr_abs. apply sqrt_le_1_alt.
  unfold Rsqr. nra.
Qed.
Lemma Rabs_vz_le (a : vec3) : Rabs (vz a) <= vlength a.
Proof.
  unfold vlength, vdot. rewrite <- sqrt_Rsqr_abs. apply sqrt_le_1_alt.
  unfold Rsqr. nra.
Qed.

(** X4.  For two positions inside the grid box closer than one cell
    width, the cell of the second is among the cells [gridsToSearch] lists
    for the cell of the first. *)
Theorem neighbour_cell_searched :
  forall g p q,
    0 < g_inverseCellWidth g -> (1 <= g_sideCount g)%Z ->
    in_grid g p -> in_grid g q ->
    vlength (vsub q p) < / g_inverseCellWidth g ->
    In (posToGridIndex q (g_minimum g) (g_inverseCellWidth g) (g_sideCount g))
       (gridsToSearch (posToGrid p (g_minimum g) (g_inverseCellWidth g) (g_sideCount g))
          (g_sideCount g)).
Proof.
  intros [res m inv] p q; simpl. intros Hinv Hres Hp Hq Hd.
  destruct Hp as (Px & Py & Pz). destruct Hq as (Qx & Qy & Qz). simpl in *.
  pose proof (Rabs_vx_le (vsub q p)) as Dx. pose proof (Rabs_vy_le (vsub q p)) as Dy.
  pose proof (Rabs_vz_le (vsub q p)) as Dz. simpl in Dx, Dy, Dz.
  rewrite Rabs_minus_sym in Dx, Dy, Dz.
  destruct (axisToGrid_close (vx p) (vx q) (vx m) inv res Hinv Hres Px Qx ltac:(lra)) as (_ & _ & Ax).
  destruct (axisToGrid_close (vy p) (vy q) (vy m) inv res Hinv Hres Py Qy ltac:(lra)) as (_ & _ & Ay).
  destruct (axisToGrid_close (vz p) (vz q) (vz m) inv res Hinv Hres Pz Qz ltac:(lra)) as (_ & _ & Az).
  unfold posToGridIndex, posToGrid.
  set (px := axisToGrid (vx p) (vx m) inv res) in *.
  set (py := axisToGrid (vy p) (vy m) inv res) in *.
  set (pz := axisToGrid (vz p) (vz m) inv res) in *.
  set (qx := axisToGrid (vx q) (vx m) inv res) in *.
  set (qy := axisToGrid (vy q) (vy m) inv res) in *.
  set (qz := axisToGrid (vz q) (vz m) inv res) in *.
  replace qx with (px + (qx - px))%Z by lia.
  replace qy with (py + (qy - py))%Z by lia.
  replace qz with (pz + (qz - pz))%Z by lia.
  apply In_gridsToSearch; lia.
Qed.

Lemma gridCellWidth_init_value : gridCellWidth_init = 10.
Proof.
  unfold gridCellWidth_init, Rmax, rule1Distance, rule2Distance, rule3Distance.
  destruct (Rle_dec 5 3); [lra|]. destruct (Rle_dec 5 5); lra.
Qed.

Lemma halfSideCount_init_value : halfSideCount_init = 11%Z.
Proof.
  unfold halfSideCount_init, float_to_int. rewrite gridCellWidth_init_value.
  unfold scene_scale. replace (100 / 10) with (IZR 10) by (simpl; lra).
  destruct (Rle_dec 0 (IZR 10)); [|lra]. rewrite Int_part_IZR. reflexivity.
Qed.

Lemma initSimulation_grid_value :
  initSimulation_grid = mkGrid gridSideCount (mkVec (-110) (-110) (-110)) (1 / 10) /\
  gridCellCount_init = gridCellCount.
Proof.
  unfold initSimulation_grid, gridCellCount_init, gridSideCount_init, gridInverseCellWidth_init,
    halfGridWidth_init.
  rewrite gridCellWidth_init_value, halfSideCount_init_value. split; [|reflexivity].
  f_equal. f_equal; simpl; lra.
Qed.

Lemma in_scene_in_grid (p : vec3) : in_scene p -> in_grid initSimulation_grid p.
Proof.
  destruct initSimulation_grid_value as [-> _].
  unfold in_scene, in_grid, gridSideCount, scene_scale; simpl.
  replace (IZR 22 / (1 / 10)) with 220 by (simpl; field). lra.
Qed.

Lemma reachable_in_scene (N : Z) (g : grid_params) (rnd : Z -> vec3) (st : sim) :
  (forall i, -1 <= vx (rnd i) <= 1 /\ -1 <= vy (rnd i) <= 1 /\ -1 <= vz (rnd i) <= 1) ->
  reachable N g rnd st -> Forall in_scene (s_pos st).
Proof.
  intros Hrnd Hr.
  induction Hr as [vel0 starts0 ends0 | dt st _ _ | pai dt st _ _ | pai dt st _ _].
  - simpl. apply Forall_forall. intros p Hp.
    apply in_map_iff in Hp as [i [<- _]].
    destruct (Hrnd i) as (Hx & Hy & Hz).
    unfold in_scene, scene_scale; simpl. repeat split; nra.
  - apply kernUpdatePos_in_scene.
  - unfold stepSimulationScatteredGrid. destruct (cell_tables _ _ _ _ _).
    apply kernUpdatePos_in_scene.
  - unfold stepSimulationCoherentGrid. destruct (cell_tables _ _ _ _ _).
    apply kernUpdatePos_in_scene.
Qed.

Lemma nthV_in_scene (pos : list vec3) (i : Z) :
  Forall in_scene pos -> in_scene (nthV pos i).
Proof.
  intros H. unfold nthV. destruct (Nat.lt_ge_cases (Z.to_nat i) (length pos)).
  - rewrite Forall_forall in H. apply H, nth_In. assumption.
  - rewrite nth_overflow by assumption. unfold in_scene, vzero, scene_scale; simpl; lra.
Qed.

Lemma posToGridIndex_in_scene (p : vec3) :
  in_scene p ->
  (0 <= posToGridIndex p (g_minimum initSimulation_grid) (g_inverseCellWidth initSimulation_grid)
         (g_sideCount initSimulation_grid) < gridCellCount)%Z.
Proof.
  intros Hp. pose proof (in_scene_in_grid p Hp) as Hg.
  destruct initSimulation_grid_value as [E _]. rewrite E in *.
  destruct Hg as (Gx & Gy & Gz). simpl in Gx, Gy, Gz.
  unfold posToGridIndex, posToGrid; simpl.
  assert (Hinv : 0 < 1 / 10) by lra.
  assert (Hres : (1 <= gridSideCount)%Z) by (unfold gridSideCount; lia).
  destruct (axisToGrid_close (vx p) (vx p) (-110) (1/10) gridSideCount Hinv Hres Gx Gx
    ltac:(rewrite Rminus_diag, Rabs_R0; lra)) as (Ax & _).
  destruct (axisToGrid_close (vy p) (vy p) (-110) (1/10) gridSideCount Hinv Hres Gy Gy
    ltac:(rewrite Rminus_diag, Rabs_R0; lra)) as (Ay & _).
  destruct (axisToGrid_close (vz p) (vz p) (-110) (1/10) gridSideCount Hinv Hres Gz Gz
    ltac:(rewrite Rminus_diag, Rabs_R0; lra)) as (Az & _).
  destruct (gridIndex3Dto1D_cases (axisToGrid (vx p) (-110) (1 / 10) gridSideCount)
    (axisToGrid (vy p) (-110) (1 / 10) gridSideCount) (axisToGrid (vz p) (-110) (1 / 10) gridSideCount)
    gridSideCount) as [[_ ->]|[Hn _]]; [|tauto].
  unfold gridCellCount, gridSideCount in *. lia.
Qed.

(** X5.  With the grid [initSimulation] computes (22 cells per axis from
    [-110], cell width 10), every cell id [kernComputeIndices] computes in
    a reachable state is a valid index of the cell tables, never [gridOOB]. *)
Theorem reachable_cell_ids_valid :
  forall N rnd st,
    (forall i, -1 <= vx (rnd i) <= 1 /\ -1 <= vy (rnd i) <= 1 /\ -1 <= vz (rnd i) <= 1) ->
    reachable N initSimulation_grid rnd st ->
    Forall (fun k => (0 <= k < gridCellCount)%Z) (kernComputeIndices N initSimulation_grid (s_pos st)).
Proof.
  intros N rnd st Hrnd Hr.
  pose proof (reachable_in_scene N initSimulation_grid rnd st Hrnd Hr) as Hs.
  unfold kernComputeIndices. apply Forall_forall. intros k Hk.
  apply in_map_iff in Hk as [i [<- _]].
  apply posToGridIndex_in_scene, nthV_in_scene, Hs.
Qed.

(** ** [copyBoidsToVBO] *)

Open Scope R_scope.

Ltac zbool_cases :=
  repeat match goal with
  | |- context [(?a =? ?b)%Z] => destruct (Z.eqb_spec a b)
  | |- context [(?a <? ?b)%Z] => destruct (Z.ltb_spec a b)
  | |- context [(?a <=? ?b)%Z] => destruct (Z.leb_spec a b)
  end; simpl.

Lemma eqb_shift (x a b : Z) : (x + a =? x + b)%Z = (a =? b)%Z.
Proof. destruct (Z.eqb_spec (x + a) (x + b)), (Z.eqb_spec a b); lia. Qed.

Lemma fold_store4 (N : Z) (A B C D : Z -> R) (n : nat) (s : Z) (vbo : list R) (i j : Z) :
  (0 <= s)%Z -> (0 <= i)%Z -> (0 <= j < 4)%Z ->
  length (fold_left (fun vbo index =>
      if (index <? N)%Z then store4 vbo index (A index) (B index) (C index) (D index) else vbo)
    (zrange s n) vbo) = length vbo /\
  nthR (fold_left (fun vbo index =>
      if (index <? N)%Z then store4 vbo index (A index) (B index) (C index) (D index) else vbo)
    (zrange s n) vbo) (4 * i + j) =
  if (i <? N)%Z && (s <=? i)%Z && (i <? s + Z.of_nat n)%Z && (4 * i + j <? Z.of_nat (length vbo))%Z
  then sel4 j (A i) (B i) (C i) (D i) else nthR vbo (4 * i + j).
Proof.
  intros Hs Hi Hj. revert s vbo Hs; induction n as [|n IH]; intros s vbo Hs;
    cbn [zrange fold_left].
  - split; [reflexivity|]. zbool_cases; try reflexivity; exfalso; lia.
  - set (vbo1 := if (s <? N)%Z then store4 vbo s (A s) (B s) (C s) (D s) else vbo).
    assert (L1 : length vbo1 = length vbo).
    { unfold vbo1, store4. destruct (s <? N)%Z; [rewrite !length_storeZ|]; reflexivity. }
    destruct (IH (s + 1)%Z vbo1 ltac:(lia)) as [IHl IHn].
    split; [rewrite IHl; exact L1|]. rewrite IHn, L1.
    unfold vbo1, nthR. destruct (s <? N)%Z eqn:Es.
    + unfold store4. rewrite !nth_storeZ by lia. rewrite !length_storeZ.
      apply Z.ltb_lt in Es.
      destruct (Z.eq_dec i s) as [->|Hne].
      * replace (s + 1 <=? s)%Z with false by (symmetry; apply Z.leb_gt; lia).
        replace (s <=? s)%Z with true by (symmetry; apply Z.leb_le; lia).
        replace (s <? s + Z.of_nat (S n))%Z with true by (symmetry; apply Z.ltb_lt; lia).
        replace (s <? N)%Z with true by (symmetry; apply Z.ltb_lt; lia).
        rewrite !eqb_shift. simpl andb.
        destruct (4 * s + j <? Z.of_nat (length vbo))%Z; simpl andb;
        assert (Jc : (j = 0 \/ j = 1 \/ j = 2 \/ j = 3)%Z) by lia;
        destruct Jc as [->|[->|[->| ->]]]; reflexivity.
      * assert (E : forall k, (0 <= k < 4)%Z -> (4 * i + j =? 4 * s + k)%Z = false)
          by (intros k Hk; apply Z.eqb_neq; lia).
        rewrite !E by lia. simpl.
        zbool_cases; try reflexivity; exfalso; lia.
    + apply Z.ltb_ge in Es. zbool_cases; try reflexivity; exfalso; lia.
Qed.

Lemma launch_covers (N : Z) : (0 <= N -> N <= (N + blockSize - 1) / blockSize * blockSize)%Z.
Proof.
  intros HN. unfold blockSize.
  pose proof (Z.div_mod (N + 128 - 1) 128 ltac:(lia)).
  pose proof (Z.mod_pos_bound (N + 128 - 1) 128 ltac:(lia)). lia.
Qed.

Lemma copyBoidsToVBO_entries :
  forall N pos vel vboP vboV,
    (0 <= N)%Z ->
    (4 * N <= Z.of_nat (length vboP))%Z -> (4 * N <= Z.of_nat (length vboV))%Z ->
    let '(P, V) := copyBoidsToVBO N pos vel vboP vboV in
    length P = length vboP /\ length V = length vboV /\
    (forall i, (0 <= i < N)%Z ->
       nthR P (4 * i + 0) = vx (nthV pos i) * (-1 / scene_scale) /\
       nthR P (4 * i + 1) = vy (nthV pos i) * (-1 / scene_scale) /\
       nthR P (4 * i + 2) = vz (nthV pos i) * (-1 / scene_scale) /\
       nthR P (4 * i + 3) = 1 /\
       nthR V (4 * i + 0) = vx (nthV vel i) + 3 / 10 /\
       nthR V (4 * i + 1) = vy (nthV vel i) + 3 / 10 /\
       nthR V (4 * i + 2) = vz (nthV vel i) + 3 / 10 /\
       nthR V (4 * i + 3) = 1) /\
    (forall k, (4 * N <= k)%Z -> nthR P k = nthR vboP k /\ nthR V k = nthR vboV k).
Proof.
  intros N pos vel vboP vboV HN HP HV. unfold copyBoidsToVBO.
  pose proof (launch_covers N HN) as Hcov.
  set (threads := ((N + blockSize - 1) / blockSize * blockSize)%Z) in *.
  set (AP := fun index => vx (nthV pos index) * (-1 / scene_scale)).
  set (BP := fun index => vy (nthV pos index) * (-1 / scene_scale)).
  set (CP := fun index => vz (nthV pos index) * (-1 / scene_scale)).
  set (AV := fun index => vx (nthV vel index) + 3 / 10).
  set (BV := fun index => vy (nthV vel index) + 3 / 10).
  set (CV := fun index => vz (nthV vel index) + 3 / 10).
  assert (EP : forall i j, (0 <= i)%Z -> (0 <= j < 4)%Z ->
     length (kernCopyPositionsToVBO threads N pos vboP scene_scale) = length vboP /\
     nthR (kernCopyPositionsToVBO threads N pos vboP scene_scale) (4 * i + j) =
     if (i <? N)%Z && (0 <=? i)%Z && (i <? 0 + Z.of_nat (Z.to_nat threads))%Z &&
        (4 * i + j <? Z.of_nat (length vboP))%Z
     then sel4 j (AP i) (BP i) (CP i) 1 else nthR vboP (4 * i + j))
    by (intros i j Hi Hj; exact (fold_store4 N AP BP CP (fun _ => 1) (Z.to_nat threads) 0 vboP i j
                                    ltac:(lia) Hi Hj)).
  assert (EV : forall i j, (0 <= i)%Z -> (0 <= j < 4)%Z ->
     length (kernCopyVelocitiesToVBO threads N vel vboV scene_scale) = length vboV /\
     nthR (kernCopyVelocitiesToVBO threads N vel vboV scene_scale) (4 * i + j) =
     if (i <? N)%Z && (0 <=? i)%Z && (i <? 0 + Z.of_nat (Z.to_nat threads))%Z &&
        (4 * i + j <? Z.of_nat (length vboV))%Z
     then sel4 j (AV i) (BV i) (CV i) 1 else nthR vboV (4 * i + j))
    by (intros i j Hi Hj; exact (fold_store4 N AV BV CV (fun _ => 1) (Z.to_nat threads) 0 vboV i j
                                    ltac:(lia) Hi Hj)).
  split; [apply (EP 0%Z 0%Z); lia|]. split; [apply (EV 0%Z 0%Z); lia|]. split.
  - intros i Hi.
    assert (T : forall j, (0 <= j < 4)%Z ->
       ((i <? N)%Z && (0 <=? i)%Z && (i <? 0 + Z.of_nat (Z.to_nat threads))%Z &&
        (4 * i + j <? Z.of_nat (length vboP))%Z) = true /\
       ((i <? N)%Z && (0 <=? i)%Z && (i <? 0 + Z.of_nat (Z.to_nat threads))%Z &&
        (4 * i + j <? Z.of_nat (length vboV))%Z) = true).
    { intros j Hj. split; zbool_cases; try reflexivity; exfalso; lia. }
    rewrite (proj2 (EP i 0%Z ltac:(lia) ltac:(lia))), (proj2 (EP i 1%Z ltac:(lia) ltac:(lia))),
      (proj2 (EP i 2%Z ltac:(lia) ltac:(lia))), (proj2 (EP i 3%Z ltac:(lia) ltac:(lia))),
      (proj2 (EV i 0%Z ltac:(lia) ltac:(lia))), (proj2 (EV i 1%Z ltac:(lia) ltac:(lia))),
      (proj2 (EV i 2%Z ltac:(lia) ltac:(lia))), (proj2 (EV i 3%Z ltac:(lia) ltac:(lia))).
    rewrite (proj1 (T 0%Z ltac:(lia))), (proj1 (T 1%Z ltac:(lia))), (proj1 (T 2%Z ltac:(lia))),
      (proj1 (T 3%Z ltac:(lia))), (proj2 (T 0%Z ltac:(lia))), (proj2 (T 1%Z ltac:(lia))),
      (proj2 (T 2%Z ltac:(lia))), (proj2 (T 3%Z ltac:(lia))).
    unfold sel4; simpl. repeat split; reflexivity.
  - intros k Hk.
    replace k with (4 * (k / 4) + k mod 4)%Z by (pose proof (Z.div_mod k 4); lia).
    pose proof (Z.mod_pos_bound k 4 ltac:(lia)).
    assert (Hq : (N <= k / 4)%Z).
    { apply Z.div_le_lower_bound; lia. }
    rewrite (proj2 (EP (k / 4)%Z (k mod 4)%Z ltac:(lia) ltac:(lia))),
      (proj2 (EV (k / 4)%Z (k mod 4)%Z ltac:(lia) ltac:(lia))).
    replace (k / 4 <? N)%Z with false by (symmetry; apply Z.ltb_ge; lia).
    simpl. split; reflexivity.
Qed.

(** X9.  [copyBoidsToVBO] launches enough threads for all [numObjects]
    boids: boid [i] gets the four floats [pos * (-1 / scene_scale)], [1] in
    the position VBO and [vel + 0.3], [1] in the velocity VBO at
    [4 i .. 4 i + 3]; the floats from [4 numObjects] on and the buffer
    lengths are unchanged. *)
Theorem copyBoidsToVBO_layout :
  forall N pos vel vboP vboV,
    (0 <= N)%Z ->
    (4 * N <= Z.of_nat (length vboP))%Z -> (4 * N <= Z.of_nat (length vboV))%Z ->
    let '(P, V) := copyBoidsToVBO N pos vel vboP vboV in
    length P = length vboP /\ length V = length vboV /\
    (forall i, (0 <= i < N)%Z ->
       nthR P (4 * i + 0) = vx (nthV pos i) * (-1 / scene_scale) /\
       nthR P (4 * i + 1) = vy (nthV pos i) * (-1 / scene_scale) /\
       nthR P (4 * i + 2) = vz (nthV pos i) * (-1 / scene_scale) /\
       nthR P (4 * i + 3) = 1 /\
       nthR V (4 * i + 0) = vx (nthV vel i) + 3 / 10 /\
       nthR V (4 * i + 1) = vy (nthV vel i) + 3 / 10 /\
       nthR V (4 * i + 2) = vz (nthV vel i) + 3 / 10 /\
       nthR V (4 * i + 3) = 1) /\
    (forall k, (4 * N <= k)%Z -> nthR P k = nthR vboP k /\ nthR V k = nthR vboV k).
Proof. exact copyBoidsToVBO_entries. Qed.
Lemma vbo_index_split (N k : Z) :
  (0 <= k < 4 * N)%Z ->
  exists i j, k = (4 * i + j)%Z /\ (0 <= i < N)%Z /\ (0 <= j < 4)%Z.
Proof.
  intros Hk. exists (k / 4)%Z, (k mod 4)%Z.
  pose proof (Z.div_mod k 4 ltac:(lia)). pose proof (Z.mod_pos_bound k 4 ltac:(lia)).
  split; [lia|]. split; [|lia]. split; [apply Z.div_pos; lia|].
  apply Z.div_lt_upper_bound; lia.
Qed.

Lemma Rabs_le_bounds (x y : R) : Rabs x <= y -> - y <= x <= y.
Proof. unfold Rabs. destruct (Rcase_abs x); lra. Qed.

Lemma updateVelocity_bounded (v a : vec3) : vlength (updateVelocity v a) <= maxSpeed.
Proof.
  destruct (Rle_dec (vlength (vadd v a)) maxSpeed) as [Hs|Hs].
  - rewrite updateVelocity_small by exact Hs. exact Hs.
  - apply Rnot_le_lt in Hs. rewrite (proj2 (updateVelocity_large v a Hs)). lra.
Qed.

(** X12.  After a step of any of the three strategies every velocity has
    length at most [maxSpeed]. *)
Theorem step_velocities_bounded :
  forall N g pai dt st,
    let bounded := Forall (fun v => vlength v <= maxSpeed) in
    bounded (s_vel1 (stepSimulationNaive N dt st)) /\
    bounded (s_vel1 (stepSimulationScatteredGrid N g pai dt st)) /\
    bounded (s_vel1 (stepSimulationCoherentGrid N g pai dt st)).
Proof.
  intros N g pai dt st bounded. unfold bounded.
  unfold stepSimulationNaive, stepSimulationScatteredGrid, stepSimulationCoherentGrid.
  destruct (cell_tables _ _ _ _ _) as [starts ends]. simpl.
  split; [|split]; apply Forall_forall; intros v Hv; apply in_map_iff in Hv;
    destruct Hv as (index & <- & _);
    [|unfold updateVelNeighborSearch|unfold updateVelNeighborSearch];
    apply updateVelocity_bounded.
Qed.

(** X10.  In every reachable state the position VBO holds coordinates in
    [[-1, 1]]: positions stay in the scene cube and are scaled by
    [-1 / scene_scale]. *)
Theorem copyBoidsToVBO_positions_in_unit_cube :
  forall N g rnd st vel vboP vboV,
    (forall i, -1 <= vx (rnd i) <= 1 /\ -1 <= vy (rnd i) <= 1 /\ -1 <= vz (rnd i) <= 1) ->
    reachable N g rnd st ->
    (0 <= N)%Z ->
    (4 * N <= Z.of_nat (length vboP))%Z -> (4 * N <= Z.of_nat (length vboV))%Z ->
    forall k, (0 <= k < 4 * N)%Z ->
      -1 <= nthR (fst (copyBoidsToVBO N (s_pos st) vel vboP vboV)) k <= 1.
Proof.
  intros N g rnd st vel vboP vboV Hrnd Hr HN HP HV k Hk.
  pose proof (reachable_in_scene N g rnd st Hrnd Hr) as Hsc.
  pose proof (copyBoidsToVBO_entries N (s_pos st) vel vboP vboV HN HP HV) as L.
  destruct (copyBoidsToVBO N (s_pos st) vel vboP vboV) as [P V]. simpl.
  destruct L as (_ & _ & Hin & _).
  destruct (vbo_index_split N k Hk) as (i & j & -> & Hi & Hj).
  specialize (Hin i Hi).
  pose proof (nthV_in_scene (s_pos st) i Hsc) as (Sx & Sy & Sz).
  unfold scene_scale in Sx, Sy, Sz.
  assert (Hj' : j = 0%Z \/ j = 1%Z \/ j = 2%Z \/ j = 3%Z) by lia.
  destruct Hin as (E0 & E1 & E2 & E3 & _).
  unfold scene_scale in E0, E1, E2.
  destruct Hj' as [-> | [-> | [-> | ->]]];
    [rewrite E0|rewrite E1|rewrite E2|rewrite E3; lra]; split;
    match goal with |- context [?c * (-1 / 100)] =>
      replace (c * (-1 / 100)) with (- c / 100) by field end;
    [apply Rmult_le_reg_r with 100|apply Rmult_le_reg_r with 100|
     apply Rmult_le_reg_r with 100|apply Rmult_le_reg_r with 100|
     apply Rmult_le_reg_r with 100|apply Rmult_le_reg_r with 100];
    try lra; unfold Rdiv; rewrite Rmult_assoc, Rinv_l by lra; lra.
Qed.

(** X11.  When every velocity has length at most [maxSpeed], the velocity
    VBO holds values in [[0.3 - maxSpeed, 0.3 + maxSpeed]]. *)
Theorem copyBoidsToVBO_velocities_range :
  forall N pos vel vboP vboV,
    (0 <= N)%Z ->
    (4 * N <= Z.of_nat (length vboP))%Z -> (4 * N <= Z.of_nat (length vboV))%Z ->
    Forall (fun v => vlength v <= maxSpeed) vel ->
    forall k, (0 <= k < 4 * N)%Z ->
      3 / 10 - maxSpeed <= nthR (snd (copyBoidsToVBO N pos vel vboP vboV)) k <= 3 / 10 + maxSpeed.
Proof.
  intros N pos vel vboP vboV HN HP HV Hb k Hk.
  pose proof (copyBoidsToVBO_entries N pos vel vboP vboV HN HP HV) as L.
  destruct (copyBoidsToVBO N pos vel vboP vboV) as [P V]. simpl.
  destruct L as (_ & _ & Hin & _).
  destruct (vbo_index_split N k Hk) as (i & j & -> & Hi & Hj).
  specialize (Hin i Hi).
  assert (Hvi : vlength (nthV vel i) <= maxSpeed).
  { unfold nthV. destruct (Nat.lt_ge_cases (Z.to_nat i) (length vel)).
    - rewrite Forall_forall in Hb. apply Hb, nth_In. assumption.
    - rewrite nth_overflow by assumption. unfold vlength, vdot, vzero, maxSpeed; simpl.
      replace (0 * 0 + 0 * 0 + 0 * 0) with 0 by ring. rewrite sqrt_0. lra. }
  pose proof (Rabs_le_bounds _ _ (Rle_trans _ _ _ (Rabs_vx_le (nthV vel i)) Hvi)).
  pose proof (Rabs_le_bounds _ _ (Rle_trans _ _ _ (Rabs_vy_le (nthV vel i)) Hvi)).
  pose proof (Rabs_le_bounds _ _ (Rle_trans _ _ _ (Rabs_vz_le (nthV vel i)) Hvi)).
  assert (Hj' : j = 0%Z \/ j = 1%Z \/ j = 2%Z \/ j = 3%Z) by lia.
  destruct Hin as (_ & _ & _ & _ & E0 & E1 & E2 & E3).
  unfold maxSpeed in *.
  destruct Hj' as [-> | [-> | [-> | ->]]];
    [rewrite E0|rewrite E1|rewrite E2|rewrite E3]; lra.
Qed.

Lemma filter_all_false {A : Type} (f : A -> bool) (l : list A) :
  (forall x, In x l -> f x = false) -> filter f l = [].
Proof.
  induction l as [|x l IH]; intros H; simpl; [reflexivity|].
  rewrite (H x (or_introl eq_refl)). apply IH. intros y Hy. apply H. right. exact Hy.
Qed.

Lemma within_far (pos : list vec3) (thisPos : vec3) (r : R) (b : Z) :
  r <= vlength (vsub (nthV pos b) thisPos) -> within pos thisPos r b = false.
Proof.
  intros H. unfold within. destruct (Rlt_dec _ r); [lra|reflexivity].
Qed.

(** X13.  In the brute-force step an agent with no other agent within the
    rule distances, whose speed is at most [maxSpeed], keeps its velocity. *)
Theorem naive_isolated_agent_keeps_velocity :
  forall N dt st i,
    (0 <= i < N)%Z ->
    (forall j, (0 <= j < N)%Z -> j <> i ->
       let d := vlength (vsub (nthV (s_pos st) j) (nthV (s_pos st) i)) in
       rule1Distance <= d /\ rule2Distance <= d /\ rule3Distance <= d) ->
    vlength (nthV (s_vel1 st) i) <= maxSpeed ->
    nthV (s_vel1 (stepSimulationNaive N dt st)) i = nthV (s_vel1 st) i.
Proof.
  intros N dt st i Hi Hfar Hv. unfold stepSimulationNaive. simpl.
  rewrite nthV_map_zrange by exact Hi.
  set (pos := s_pos st) in *. set (vel := s_vel1 st) in *.
  assert (Hc : computeVelocityChange 0 N i pos vel =
               velocity_change_spec i (loop_range 0 N) pos vel)
    by apply rule_finish_spec.
  assert (Hfilt : forall r, (forall j, (0 <= j < N)%Z -> j <> i ->
                    r <= vlength (vsub (nthV pos j) (nthV pos i))) ->
            filter (within pos (nthV pos i) r)
              (filter (fun b => negb (b =? i)%Z) (loop_range 0 N)) = []).
  { intros r Hr. apply filter_all_false. intros b Hb.
    apply filter_In in Hb as [Hb Hne]. unfold loop_range in Hb.
    apply In_zrange in Hb. apply negb_true_iff, Z.eqb_neq in Hne.
    apply within_far. apply Hr; lia. }
  assert (Hzero : velocity_change_spec i (loop_range 0 N) pos vel = mkVec 0 0 0).
  { unfold velocity_change_spec.
    rewrite (Hfilt rule1Distance), (Hfilt rule2Distance), (Hfilt rule3Distance)
      by (intros j Hj Hji; apply (Hfar j Hj Hji)).
    vec_eq; unfold vscale, vopp, vzero; simpl; ring. }
  rewrite Hc, Hzero. rewrite updateVelocity_small.
  - vec_eq; ring.
  - replace (vadd (nthV vel i) (mkVec 0 0 0)) with (nthV vel i) by (vec_eq; ring). exact Hv.
Qed.

Lemma nthV_map_in (f : vec3 -> vec3) (pos : list vec3) (b : Z) :
  (0 <= b < Z.of_nat (length pos))%Z -> nthV (map f pos) b = f (nthV pos b).
Proof.
  intros Hb. unfold nthV. rewrite nth_indep with (d' := f vzero) by (rewrite length_map; lia).
  apply map_nth.
Qed.

Lemma vsum_shift (t : vec3) (f : Z -> vec3) (l : list Z) :
  vsum (map (fun b => vadd t (f b)) l) = vadd (vsum (map f l)) (vscale t (INR (length l))).
Proof.
  induction l as [|b l IH]; simpl.
  - unfold INR. vec_eq; ring.
  - rewrite IH. rewrite S_INR. vec_eq; ring.
Qed.

(** X14.  [computeVelocityChange] only depends on relative positions:
    translating every position by the same vector leaves the velocity
    change unchanged, when [iSelf] and the loop range index the position
    buffer. *)
Theorem computeVelocityChange_translation :
  forall start end_ iSelf pos vel t,
    (0 <= start)%Z -> (end_ <= Z.of_nat (length pos))%Z ->
    (0 <= iSelf < Z.of_nat (length pos))%Z ->
    computeVelocityChange start end_ iSelf (map (vadd t) pos) vel =
    computeVelocityChange start end_ iSelf pos vel.
Proof.
  intros start end_ iSelf pos vel t Hs He Hi.
  assert (Hc : forall p, computeVelocityChange start end_ iSelf p vel =
                         velocity_change_spec iSelf (loop_range start end_) p vel)
    by (intros; apply rule_finish_spec).
  rewrite !Hc.
  assert (Hin : forall b, In b (loop_range start end_) ->
                  (0 <= b < Z.of_nat (length pos))%Z).
  { intros b Hb. unfold loop_range in Hb. apply In_zrange in Hb. lia. }
  set (others := filter (fun b => negb (b =? iSelf)%Z) (loop_range start end_)).
  assert (Hoth : forall b, In b others -> (0 <= b < Z.of_nat (length pos))%Z)
    by (intros b Hb; apply filter_In in Hb; apply Hin; tauto).
  set (thisPos := nthV pos iSelf).
  assert (Hself : nthV (map (vadd t) pos) iSelf = vadd t thisPos)
    by (apply nthV_map_in; exact Hi).
  assert (Hf : forall r, filter (within (map (vadd t) pos) (vadd t thisPos) r) others =
                         filter (within pos thisPos r) others).
  { intros r. apply filter_ext_in. intros b Hb. unfold within.
    rewrite nthV_map_in by (apply Hoth; exact Hb).
    replace (vsub (vadd t (nthV pos b)) (vadd t thisPos)) with (vsub (nthV pos b) thisPos)
      by (vec_eq; ring).
    reflexivity. }
  unfold velocity_change_spec. fold others. rewrite Hself. fold thisPos.
  rewrite !Hf.
  assert (Hm : forall l, incl l others ->
            map (nthV (map (vadd t) pos)) l = map (fun b => vadd t (nthV pos b)) l).
  { intros l Hl. apply map_ext_in. intros b Hb. apply nthV_map_in, Hoth, Hl, Hb. }
  assert (Hm2 : forall l, incl l others ->
            map (fun b => vsub (nthV (map (vadd t) pos) b) (vadd t thisPos)) l =
            map (fun b => vsub (nthV pos b) thisPos) l).
  { intros l Hl. apply map_ext_in. intros b Hb.
    rewrite nthV_map_in by (apply Hoth, Hl, Hb). vec_eq; ring. }
  rewrite (Hm2 _ (fun b Hb => proj1 (proj1 (filter_In _ _ _) Hb))).
  destruct (filter (within pos thisPos rule1Distance) others) as [|b l] eqn:E1.
  - reflexivity.
  - rewrite Hm by (rewrite <- E1; intros x Hx; apply filter_In in Hx; tauto).
    rewrite vsum_shift.
    assert (HL : INR (length (b :: l)) <> 0)
      by (simpl length; rewrite S_INR; pose proof (pos_INR (length l)); lra).
    set (L := INR (length (b :: l))) in *.
    vec_eq; field; exact HL.
Qed.

Lemma endSimulation_freed_step (s : strategy) (b : buffers) :
  Permutation (endSimulation_freed (step_buffers s b)) (endSimulation_freed b).
Proof.
  destruct s; unfold endSimulation_freed; simpl.
  - apply perm_swap.
  - apply perm_swap.
  - etransitivity; [apply perm_swap|]. apply perm_skip, perm_skip, perm_swap.
Qed.

Lemma endSimulation_freed_run (ss : list strategy) (b : buffers) :
  Permutation (endSimulation_freed (run_buffers ss b)) (endSimulation_freed b).
Proof.
  unfold run_buffers. revert b; induction ss as [|s ss IH]; intros b; simpl; [reflexivity|].
  etransitivity; [apply IH|]. apply endSimulation_freed_step.
Qed.

(** X15.  Whatever steps ran, the pointer swaps keep the four pointers
    [endSimulation] frees pairwise distinct: they are always the
    allocations of [dev_vel1], [dev_vel2], [dev_pos] and [dev_sortedPos]
    of [initSimulation], each freed exactly once. *)
Theorem endSimulation_frees_each_swapped_buffer_once :
  forall ss : list strategy,
    Permutation (endSimulation_freed (run_buffers ss initSimulation_buffers)) [1; 2; 0; 7]%nat /\
    NoDup (endSimulation_freed (run_buffers ss initSimulation_buffers)).
Proof.
  intros ss. pose proof (endSimulation_freed_run ss initSimulation_buffers) as P.
  split; [exact P|].
  apply (Permutation_NoDup (Permutation_sym P)). unfold endSimulation_freed; simpl.
  repeat constructor; simpl; lia.
Qed.

(** ** Witnesses *)

Open Scope Z_scope.

Lemma hash_u32_injective_witness :
  0 <= hash 5 < 2 ^ 32 /\ 0 <= 3 < 2 ^ 32 /\ hash 3 = hash 3 /\ 3 = 3.
Proof.
  split; [exact (proj1 hash_u32_injective 5)|].
  split; [lia|]. split; [reflexivity|].
  exact (proj2 hash_u32_injective 3 3 ltac:(lia) ltac:(lia) eq_refl).
Defined.

Lemma gridIndex3Dto1D_in_range_injective_witness :
  0 <= gridIndex3Dto1D 1 2 3 22 < 22 * 22 * 22 /\
  gridIndex3Dto1D 1 2 3 22 = gridIndex3Dto1D 1 2 3 22 /\ (1 = 1 /\ 2 = 2 /\ 3 = 3).
Proof.
  destruct (gridIndex3Dto1D_in_range_injective 1 2 3 1 2 3 22
              ltac:(lia) ltac:(lia) ltac:(lia) ltac:(lia) ltac:(lia) ltac:(lia)) as [H1 H2].
  split; [exact H1|]. split; [reflexivity|]. exact (H2 eq_refl).
Defined.

Lemma gridsToSearch_no_repeat_witness :
  nthZ (gridsToSearch (0, 0, 0) 22) 0 = nthZ (gridsToSearch (0, 0, 0) 22) 1 /\
  nthZ (gridsToSearch (0, 0, 0) 22) 0 = gridOOB.
Proof.
  assert (E : nthZ (gridsToSearch (0, 0, 0) 22) 0 = nthZ (gridsToSearch (0, 0, 0) 22) 1)
    by reflexivity.
  split; [exact E|].
  exact (gridsToSearch_no_repeat 0 0 0 22 0 1 ltac:(lia) ltac:(lia) ltac:(lia) E).
Defined.

Lemma kernResetIntBuffer_entries_witness :
  0 <= 1 < Z.of_nat (length [5; 5; 5; 5]) /\
  nthZ (kernResetIntBuffer 128 2 [5; 5; 5; 5] (-1)) 1 =
  (if (1 <? 2) && (1 <? 128) then -1 else nthZ [5; 5; 5; 5] 1).
Proof.
  split; [simpl; lia|].
  exact (proj2 (kernResetIntBuffer_entries 128 2 [5; 5; 5; 5] (-1)) 1 ltac:(simpl; lia)).
Defined.

Lemma sorted_example_keys : Sorted Z.le [0; 0; 0; 1; 1; 2].
Proof. repeat constructor; lia. Qed.

Lemma kernIdentifyCellStartEnd_starts_witness :
  Sorted Z.le [0; 0; 0; 1; 1; 2] /\
  Forall (fun c => 0 <= c < Z.of_nat (length (repeat (-1) 8))) [0; 0; 0; 1; 1; 2] /\
  nthZ (fst (kernIdentifyCellStartEnd 6 [0; 0; 0; 1; 1; 2] (repeat (-1) 8) (repeat (-1) 8)))
    (nthZ [0; 0; 0; 1; 1; 2] 3) = 3.
Proof.
  assert (Hk : Forall (fun c => 0 <= c < Z.of_nat (length (repeat (-1) 8))) [0; 0; 0; 1; 1; 2])
    by (repeat constructor; simpl; lia).
  split; [exact sorted_example_keys|]. split; [exact Hk|].
  exact (proj2 (kernIdentifyCellStartEnd_starts [0; 0; 0; 1; 1; 2] (repeat (-1) 8) (repeat (-1) 8)
                  sorted_example_keys Hk) 3 ltac:(simpl; lia)
               ltac:(right; unfold nthZ; simpl; lia)).
Defined.

Lemma kernIdentifyCellStartEnd_ends_witness :
  Sorted Z.le [0; 0; 0; 1; 1; 2] /\
  Forall (fun c => 0 <= c < Z.of_nat (length (repeat (-1) 8))) [0; 0; 0; 1; 1; 2] /\
  nthZ (snd (kernIdentifyCellStartEnd 6 [0; 0; 0; 1; 1; 2] (repeat (-1) 8) (repeat (-1) 8)))
    (nthZ [0; 0; 0; 1; 1; 2] 2) = 3.
Proof.
  assert (Hk : Forall (fun c => 0 <= c < Z.of_nat (length (repeat (-1) 8))) [0; 0; 0; 1; 1; 2])
    by (repeat constructor; simpl; lia).
  split; [exact sorted_example_keys|]. split; [exact Hk|].
  exact (proj1 (proj2 (kernIdentifyCellStartEnd_ends [0; 0; 0; 1; 1; 2] (repeat (-1) 8)
                  (repeat (-1) 8) sorted_example_keys Hk)) 2 ltac:(lia) ltac:(simpl; lia)
               ltac:(unfold nthZ; simpl; lia)).
Defined.

Open Scope R_scope.

Lemma vlength_unit_offset : vlength (vsub (mkVec 1 0 0) (mkVec 0 0 0)) = 1.
Proof.
  unfold vlength, vdot, vsub; simpl.
  replace ((1 - 0) * (1 - 0) + (0 - 0) * (0 - 0) + (0 - 0) * (0 - 0)) with 1 by ring.
  apply sqrt_1.
Qed.

Lemma neighbour_cell_searched_witness :
  In (posToGridIndex (mkVec 1 0 0) (mkVec (-110) (-110) (-110)) (1 / 10) 22)
     (gridsToSearch (posToGrid (mkVec 0 0 0) (mkVec (-110) (-110) (-110)) (1 / 10) 22) 22).
Proof.
  exact (neighbour_cell_searched (mkGrid 22 (mkVec (-110) (-110) (-110)) (1 / 10))
           (mkVec 0 0 0) (mkVec 1 0 0) ltac:(simpl; lra) ltac:(simpl; lia)
           ltac:(unfold in_grid; simpl; repeat split; lra)
           ltac:(unfold in_grid; simpl; repeat split; lra)
           ltac:(simpl; rewrite vlength_unit_offset; lra)).
Defined.

Lemma reachable_cell_ids_valid_witness :
  Forall (fun k => (0 <= k < gridCellCount)%Z)
    (kernComputeIndices 2 initSimulation_grid
       (s_pos (initSimulation 2 (fun _ => mkVec (1/2) 0 (-1)) [] [] []))).
Proof.
  exact (reachable_cell_ids_valid 2 (fun _ => mkVec (1/2) 0 (-1))
           (initSimulation 2 (fun _ => mkVec (1/2) 0 (-1)) [] [] [])
           ltac:(intros i; simpl; lra) (reach_init _ _ _ [] [] [])).
Defined.

Lemma copyBoidsToVBO_layout_witness :
  nthR (fst (copyBoidsToVBO 1 [mkVec 50 0 0] [vzero] [0; 0; 0; 0] [0; 0; 0; 0])) 0 =
  50 * (-1 / scene_scale).
Proof.
  pose proof (copyBoidsToVBO_layout 1 [mkVec 50 0 0] [vzero] [0; 0; 0; 0] [0; 0; 0; 0]
                ltac:(lia) ltac:(simpl; lia) ltac:(simpl; lia)) as L.
  destruct (copyBoidsToVBO 1 [mkVec 50 0 0] [vzero] [0; 0; 0; 0] [0; 0; 0; 0]) as [P V].
  destruct L as (_ & _ & Hin & _). exact (proj1 (Hin 0%Z ltac:(lia))).
Defined.

Lemma copyBoidsToVBO_positions_in_unit_cube_witness :
  -1 <= nthR (fst (copyBoidsToVBO 2
           (s_pos (initSimulation 2 (fun _ => mkVec (1/2) 0 (-1)) [] [] []))
           [] (repeat 0 8) (repeat 0 8))) 2 <= 1.
Proof.
  exact (copyBoidsToVBO_positions_in_unit_cube 2 initSimulation_grid (fun _ => mkVec (1/2) 0 (-1))
           (initSimulation 2 (fun _ => mkVec (1/2) 0 (-1)) [] [] []) [] (repeat 0 8) (repeat 0 8)
           ltac:(intros i; simpl; lra) (reach_init _ _ _ [] [] [])
           ltac:(lia) ltac:(simpl; lia) ltac:(simpl; lia) 2%Z ltac:(lia)).
Defined.

Lemma vlength_vzero : vlength vzero = 0.
Proof.
  unfold vlength, vdot, vzero; simpl. replace (0 * 0 + 0 * 0 + 0 * 0) with 0 by ring.
  apply sqrt_0.
Qed.

Lemma copyBoidsToVBO_velocities_range_witness :
  3 / 10 - maxSpeed <= nthR (snd (copyBoidsToVBO 1 [vzero] [vzero] [0; 0; 0; 0] [0; 0; 0; 0])) 1
    <= 3 / 10 + maxSpeed.
Proof.
  exact (copyBoidsToVBO_velocities_range 1 [vzero] [vzero] [0; 0; 0; 0] [0; 0; 0; 0]
           ltac:(lia) ltac:(simpl; lia) ltac:(simpl; lia)
           ltac:(repeat constructor; rewrite vlength_vzero; unfold maxSpeed; lra)
           1%Z ltac:(lia)).
Defined.

Lemma vlength_ten : vlength (vsub (mkVec 10 0 0) (mkVec 0 0 0)) = 10.
Proof.
  unfold vlength, vdot, vsub; simpl.
  replace ((10 - 0) * (10 - 0) + (0 - 0) * (0 - 0) + (0 - 0) * (0 - 0)) with (10 * 10) by ring.
  apply sqrt_square. lra.
Qed.

Lemma naive_isolated_agent_keeps_velocity_witness :
  nthV (s_vel1 (stepSimulationNaive 2 1 (mkSim [mkVec 0 0 0; mkVec 10 0 0] [vzero; vzero] [] [])))
    0 = vzero.
Proof.
  exact (naive_isolated_agent_keeps_velocity 2 1
           (mkSim [mkVec 0 0 0; mkVec 10 0 0] [vzero; vzero] [] []) 0%Z ltac:(lia)
           ltac:(intros j Hj Hji; assert (j = 1%Z) by lia; subst j; simpl;
                 unfold nthV; simpl; rewrite vlength_ten;
                 unfold rule1Distance, rule2Distance, rule3Distance; lra)
           ltac:(simpl; unfold nthV; simpl; rewrite vlength_vzero; unfold maxSpeed; lra)).
Defined.

Lemma computeVelocityChange_translation_witness :
  computeVelocityChange 0 2 0 (map (vadd (mkVec 3 4 5)) [mkVec 0 0 0; mkVec 1 0 0]) [vzero; vzero] =
  computeVelocityChange 0 2 0 [mkVec 0 0 0; mkVec 1 0 0] [vzero; vzero].
Proof.
  exact (computeVelocityChange_translation 0 2 0 [mkVec 0 0 0; mkVec 1 0 0] [vzero; vzero]
           (mkVec 3 4 5) ltac:(lia) ltac:(simpl; lia) ltac:(simpl; lia)).
Defined.

(** ** The grid steps on concrete inputs *)

Open Scope R_scope.

Lemma axisToGrid_at (p m inv : R) (res z : Z) :
  IZR z <= (p - m) * inv < IZR z + 1 -> z <> res -> axisToGrid p m inv res = z.
Proof.
  intros Hb Hz. unfold axisToGrid. rewrite (Int_part_eq _ z Hb).
  apply Z.eqb_neq in Hz. rewrite Hz. reflexivity.
Qed.

Lemma nthZ_clamp (l : list Z) (c : Z) : nthZ l c = nth (Z.to_nat (Z.max 0 c)) l 0%Z.
Proof. unfold nthZ. f_equal. lia. Qed.

Lemma loop_range_same (s : Z) : loop_range s s = [].
Proof. unfold loop_range. rewrite Z.sub_diag. reflexivity. Qed.

(** The derivation on two agents of one cell [c]: thread 0 writes the start
    [0], thread [N - 1 = 1] the end [1]. *)
Lemma cell_tables_pair (cnt c : Z) (R : list Z) :
  cell_tables 2 cnt [c; c] R R =
  (storeZ (kernResetIntBuffer ((cnt + blockSize - 1) / blockSize * blockSize) 2 R (-1)) c 0%Z,
   storeZ (kernResetIntBuffer ((cnt + blockSize - 1) / blockSize * blockSize) 2 R (-1)) c 1%Z).
Proof.
  unfold cell_tables, kernIdentifyCellStartEnd. cbn zeta.
  generalize (kernResetIntBuffer ((cnt + blockSize - 1) / blockSize * blockSize) 2 R (-1)).
  intros K. simpl. rewrite Z.eqb_refl. reflexivity.
Qed.

(** On sorted cell ids [[x; y; y]]: thread 1 opens [y] and closes [x],
    thread [N - 1 = 2] writes the end [2] of [y]. *)
Lemma cell_tables_trio (cnt x y : Z) (R : list Z) :
  x <> y ->
  cell_tables 3 cnt [x; y; y] R R =
  (storeZ (storeZ (kernResetIntBuffer ((cnt + blockSize - 1) / blockSize * blockSize) 3 R (-1))
             x 0%Z) y 1%Z,
   storeZ (storeZ (kernResetIntBuffer ((cnt + blockSize - 1) / blockSize * blockSize) 3 R (-1))
             x 1%Z) y 2%Z).
Proof.
  intros Hxy. apply Z.eqb_neq in Hxy. rewrite Z.eqb_sym in Hxy.
  unfold cell_tables, kernIdentifyCellStartEnd. cbn zeta.
  generalize (kernResetIntBuffer ((cnt + blockSize - 1) / blockSize * blockSize) 3 R (-1)).
  intros K. unfold identify_thread, nthZ. simpl.
  rewrite Hxy. simpl. rewrite Z.eqb_refl. reflexivity.
Qed.

Lemma pair_tables_ranges (R : list Z) (c g' i : Z) :
  In i (loop_range (nthZ (storeZ R c 0%Z) g') (nthZ (storeZ R c 1%Z) g')) -> i = 0%Z.
Proof.
  rewrite !nthZ_clamp, !nth_storeZ by lia.
  destruct ((Z.max 0 g' =? c) && (Z.max 0 g' <? Z.of_nat (length R)))%bool.
  - unfold loop_range. simpl. intros [<-|[]]. reflexivity.
  - rewrite loop_range_same. intros [].
Qed.

Lemma trio_tables_ranges (R : list Z) (x y g' i : Z) :
  In i (loop_range (nthZ (storeZ (storeZ R x 0%Z) y 1%Z) g')
                   (nthZ (storeZ (storeZ R x 1%Z) y 2%Z) g')) -> (0 <= i < 2)%Z.
Proof.
  rewrite !nthZ_clamp, !nth_storeZ, !length_storeZ by lia. intros H.
  destruct (Z.max 0 g' =? y)%Z, (Z.max 0 g' =? x)%Z, (Z.max 0 g' <? Z.of_nat (length R))%Z;
    cbn [andb] in H; rewrite ?loop_range_same in H; unfold loop_range in H; simpl in H; lia.
Qed.

Lemma fold_self_only (thisPos : vec3) (index : Z) (pos vel : list vec3) (l : list Z)
    (acc : rule_acc) :
  (forall b, In b l -> b = index) ->
  fold_left (fun a b =>
      if (b =? index)%Z then a else rule_body thisPos (nthV pos b) (nthV vel b) a) l acc = acc.
Proof.
  induction l as [|b l IH]; intros H; simpl; [reflexivity|].
  rewrite (H b (or_introl eq_refl)), Z.eqb_refl. apply IH.
  intros b' Hb'. apply H. right. exact Hb'.
Qed.

Lemma grid_boids_pair (grids R pai : list Z) (c b : Z) :
  In b (grid_boids grids (storeZ R c 0%Z) (storeZ R c 1%Z) (Some pai)) -> b = nthZ pai 0.
Proof.
  unfold grid_boids. rewrite in_flat_map. intros (grid & _ & Hb).
  destruct (grid =? gridOOB)%Z; [destruct Hb|].
  apply in_map_iff in Hb as (i & <- & Hi). apply pair_tables_ranges in Hi. subst i. reflexivity.
Qed.

(** With the tables of [cell_tables_pair], the agent in sorted slot 0
    visits only itself: its acceleration is zero. *)
Lemma pair_grid_velocity (g : grid_params) (R pai : list Z) (c a : Z) (pos vel : list vec3) :
  nthZ pai 0 = a -> nthV vel a = vzero ->
  updateVelNeighborSearch g (storeZ R c 0%Z) (storeZ R c 1%Z) (Some pai) pos vel a = vzero.
Proof.
  intros Ha Hv. unfold updateVelNeighborSearch, computeVelocityChangeInGrids.
  rewrite fold_grids, fold_self_only.
  - rewrite Hv. apply updateVelocity_zero, vec_is_zero_true.
    unfold rule_finish; simpl. repeat split; ring.
  - intros b Hb. apply grid_boids_pair in Hb. congruence.
Qed.

Lemma vlength_x (x : R) : vlength (mkVec x 0 0) = Rabs x.
Proof.
  unfold vlength, vdot; simpl.
  replace (x * x + 0 * 0 + 0 * 0) with (Rsqr x) by (unfold Rsqr; ring).
  apply sqrt_Rsqr_abs.
Qed.

Lemma pair_naive_acceleration_0 :
  computeVelocityChange 0 2 0 pair_pos [vzero; vzero] = mkVec (-9/100) 0 0.
Proof.
  unfold computeVelocityChange. rewrite rule_finish_spec.
  unfold velocity_change_spec. simpl.
  unfold within, nthV. simpl.
  replace (vsub (mkVec 1 0 0) (mkVec 0 0 0)) with (mkVec 1 0 0) by (vec_eq; ring).
  rewrite vlength_x, Rabs_R1.
  unfold rule1Distance, rule2Distance, rule3Distance.
  rlt_cases. simpl. unfold rule1Scale, rule2Scale, rule3Scale, vzero.
  replace (INR 1) with 1 by reflexivity.
  vec_eq; field.
Qed.

Lemma pair_naive_acceleration_1 :
  computeVelocityChange 0 2 1 pair_pos [vzero; vzero] = mkVec (9/100) 0 0.
Proof.
  unfold computeVelocityChange. rewrite rule_finish_spec.
  unfold velocity_change_spec. simpl.
  unfold within, nthV. simpl.
  replace (vsub (mkVec 0 0 0) (mkVec 1 0 0)) with (mkVec (-1) 0 0) by (vec_eq; ring).
  rewrite vlength_x. replace (Rabs (-1)) with 1 by (rewrite Rabs_left; lra).
  unfold rule1Distance, rule2Distance, rule3Distance.
  rlt_cases. simpl. unfold rule1Scale, rule2Scale, rule3Scale, vzero.
  replace (INR 1) with 1 by reflexivity.
  vec_eq; field.
Qed.

Lemma updateVelocity_rest_x (x : R) :
  Rabs x <= maxSpeed -> updateVelocity vzero (mkVec x 0 0) = mkVec x 0 0.
Proof.
  intros H. rewrite updateVelocity_small.
  - vec_eq; ring.
  - replace (vadd vzero (mkVec x 0 0)) with (mkVec x 0 0) by (vec_eq; ring).
    rewrite vlength_x. exact H.
Qed.

Lemma map_nthZ_pair (c : Z) (pai : list Z) :
  pai = [0; 1]%Z \/ pai = [1; 0]%Z -> map (nthZ [c; c]) pai = [c; c].
Proof. intros [-> | ->]; reflexivity. Qed.

(** C2 (code_bug).  Two agents at rest one unit apart, at [(0,0,0)] and
    [(1,0,0)], inside all three rule radii of each other.  On every grid
    [g] that puts both in one cell [c] (whatever its cell width), and for
    every result [pai] of the unstable sort, the brute-force step gives the
    agent [pai[0]] of sorted slot 0 the velocity [(-0.09, 0, 0)] or
    [(0.09, 0, 0)], but the scattered-grid step gives it [0], and so does
    the coherent-grid step in slot 0, where that agent sits: the range of
    cell [c] is [[0, 1)] (the derivation stores the end [N - 1] for the last
    cell, see C1), so the other agent, in sorted slot 1, is never visited.
    The x components differ by [0.09 > 1e-4]. *)
Theorem scattered_grid_step_differs_from_naive :
  forall g pai dt n c,
    kernComputeIndices 2 g pair_pos = [c; c] ->
    sort_by_key_result (kernComputeIndices 2 g pair_pos) pai ->
    Rabs (vx (nthV (s_vel1 (stepSimulationNaive 2 dt (pair_sim n))) (nthZ pai 0))) = 9 / 100 /\
    nthV (s_vel1 (stepSimulationScatteredGrid 2 g pai dt (pair_sim n))) (nthZ pai 0) = vzero /\
    nthV (s_vel1 (stepSimulationCoherentGrid 2 g pai dt (pair_sim n))) 0 = vzero /\
    Rabs (vx (nthV (s_vel1 (stepSimulationNaive 2 dt (pair_sim n))) (nthZ pai 0)) -
          vx (nthV (s_vel1 (stepSimulationScatteredGrid 2 g pai dt (pair_sim n))) (nthZ pai 0)))
      > 1 / 10000 /\
    Rabs (vx (nthV (s_vel1 (stepSimulationNaive 2 dt (pair_sim n))) (nthZ pai 0)) -
          vx (nthV (s_vel1 (stepSimulationCoherentGrid 2 g pai dt (pair_sim n))) 0))
      > 1 / 10000.
Proof.
  intros g pai dt n c Hk Hs.
  pose proof (sort_result_facts 2 _ pai (kernComputeIndices_length 2 g pair_pos) Hs)
    as (Hl & Hnd & Hin).
  destruct Hs as [Hp _]. rewrite Hk in Hp. simpl in Hp.
  apply Permutation_sym, Permutation_length_2_inv in Hp.
  assert (Ha : (0 <= nthZ pai 0 < 2)%Z) by (destruct Hp as [-> | ->]; cbn; lia).
  assert (Hnaive : Rabs (vx (nthV (s_vel1 (stepSimulationNaive 2 dt (pair_sim n))) (nthZ pai 0)))
                   = 9 / 100).
  { unfold stepSimulationNaive. cbn [s_vel1 s_pos pair_sim].
    rewrite (nthV_map_zrange _ 2 _ Ha).
    destruct Hp as [-> | ->]; cbn [nthZ nth Z.to_nat];
      [rewrite pair_naive_acceleration_0 | rewrite pair_naive_acceleration_1];
      replace (nthV [vzero; vzero] _) with vzero by reflexivity;
      rewrite updateVelocity_rest_x; simpl; unfold maxSpeed, Rabs;
      destruct (Rcase_abs _); lra. }
  assert (Hsc : nthV (s_vel1 (stepSimulationScatteredGrid 2 g pai dt (pair_sim n))) (nthZ pai 0)
                = vzero).
  { unfold stepSimulationScatteredGrid. cbn zeta. cbn [s_vel1 s_pos s_start s_end pair_sim].
    rewrite Hk, (map_nthZ_pair c pai Hp), cell_tables_pair. cbn iota beta. cbn [s_vel1].
    rewrite (nthV_map_zrange _ 2 _ Ha).
    apply pair_grid_velocity; [reflexivity|]. destruct Hp as [-> | ->]; reflexivity. }
  assert (Hco : nthV (s_vel1 (stepSimulationCoherentGrid 2 g pai dt (pair_sim n))) 0 = vzero).
  { unfold stepSimulationCoherentGrid. cbn zeta. cbn [s_vel1 s_pos s_start s_end pair_sim].
    rewrite Hk, (map_nthZ_pair c pai Hp), cell_tables_pair. cbn iota beta. cbn [s_vel1].
    rewrite (nthV_map_zrange _ 2 0) by lia.
    rewrite (updateVelNeighborSearch_coherent 2 0 g pai); [| exact Hnd | exact Hl | lia |].
    - apply pair_grid_velocity; [reflexivity|]. destruct Hp as [-> | ->]; reflexivity.
    - intros c' i Hi. apply pair_tables_ranges in Hi. lia. }
  split; [exact Hnaive|]. split; [exact Hsc|]. split; [exact Hco|].
  rewrite Hsc, Hco. cbn [vx vzero]. rewrite Rminus_0_r, Hnaive. split; lra.
Qed.

Lemma pair_sim_reachable (n : nat) :
  reachable 2 initSimulation_grid pair_rnd (pair_sim n).
Proof.
  assert (E : initSimulation 2 pair_rnd [vzero; vzero] (repeat (-1)%Z n) (repeat (-1)%Z n)
              = pair_sim n).
  { unfold initSimulation, pair_sim, pair_pos, pair_rnd, scene_scale. simpl.
    replace (mkVec (100 * 0) (100 * 0) (100 * 0)) with (mkVec 0 0 0) by (vec_eq; ring).
    replace (mkVec (100 * (1 / 100)) (100 * 0) (100 * 0)) with (mkVec 1 0 0)
      by (vec_eq; field).
    reflexivity. }
  rewrite <- E. apply reach_init.
Qed.

Lemma pair_pos_keys : kernComputeIndices 2 initSimulation_grid pair_pos = [5577; 5577]%Z.
Proof.
  destruct initSimulation_grid_value as [-> _].
  assert (H0 : axisToGrid 0 (-110) (1 / 10) 22 = 11%Z) by (apply axisToGrid_at; [lra | lia]).
  assert (H1 : axisToGrid 1 (-110) (1 / 10) 22 = 11%Z) by (apply axisToGrid_at; [lra | lia]).
  unfold kernComputeIndices, posToGridIndex, posToGrid, pair_pos, gridSideCount.
  simpl. rewrite H0, H1. reflexivity.
Qed.

Lemma pair_pos_sorted :
  sort_by_key_result (kernComputeIndices 2 initSimulation_grid pair_pos) [0; 1]%Z.
Proof.
  rewrite pair_pos_keys. split; [simpl; apply Permutation_refl|].
  simpl. apply Sorted_cons; [apply Sorted_cons; [apply Sorted_nil | apply HdRel_nil]|].
  apply HdRel_cons. unfold nthZ; simpl; lia.
Qed.

(** Witness for C2: the grid of [initSimulation] (22 cells of width 10 per
    axis from [-110]) puts both agents in cell 5577, the state is reachable
    from [initSimulation], and the identity is a result of the sort. *)
Lemma scattered_grid_step_differs_from_naive_witness :
  kernComputeIndices 2 initSimulation_grid pair_pos = [5577; 5577]%Z /\
  sort_by_key_result (kernComputeIndices 2 initSimulation_grid pair_pos) [0; 1]%Z /\
  reachable 2 initSimulation_grid pair_rnd (pair_sim (Z.to_nat gridCellCount)) /\
  Rabs (vx (nthV (s_vel1 (stepSimulationNaive 2 1 (pair_sim (Z.to_nat gridCellCount))))
              (nthZ [0; 1]%Z 0))) = 9 / 100 /\
  nthV (s_vel1 (stepSimulationScatteredGrid 2 initSimulation_grid [0; 1]%Z 1
                 (pair_sim (Z.to_nat gridCellCount)))) (nthZ [0; 1]%Z 0) = vzero /\
  nthV (s_vel1 (stepSimulationCoherentGrid 2 initSimulation_grid [0; 1]%Z 1
                 (pair_sim (Z.to_nat gridCellCount)))) 0 = vzero /\
  Rabs (vx (nthV (s_vel1 (stepSimulationNaive 2 1 (pair_sim (Z.to_nat gridCellCount))))
              (nthZ [0; 1]%Z 0)) -
        vx (nthV (s_vel1 (stepSimulationScatteredGrid 2 initSimulation_grid [0; 1]%Z 1
                 (pair_sim (Z.to_nat gridCellCount)))) (nthZ [0; 1]%Z 0))) > 1 / 10000 /\
  Rabs (vx (nthV (s_vel1 (stepSimulationNaive 2 1 (pair_sim (Z.to_nat gridCellCount))))
              (nthZ [0; 1]%Z 0)) -
        vx (nthV (s_vel1 (stepSimulationCoherentGrid 2 initSimulation_grid [0; 1]%Z 1
                 (pair_sim (Z.to_nat gridCellCount)))) 0)) > 1 / 10000.
Proof.
  split; [exact pair_pos_keys|]. split; [exact pair_pos_sorted|].
  split; [apply pair_sim_reachable|].
  exact (scattered_grid_step_differs_from_naive initSimulation_grid [0; 1]%Z 1
           (Z.to_nat gridCellCount) 5577%Z pair_pos_keys pair_pos_sorted).
Defined.

Lemma trio_keys :
  kernComputeIndices 3 initSimulation_grid (s_pos trio_sim) = [5578; 5578; 5577]%Z.
Proof.
  destruct initSimulation_grid_value as [-> _].
  assert (H0 : axisToGrid 0 (-110) (1 / 10) 22 = 11%Z) by (apply axisToGrid_at; [lra | lia]).
  assert (H12 : axisToGrid 12 (-110) (1 / 10) 22 = 12%Z) by (apply axisToGrid_at; [lra | lia]).
  assert (H11 : axisToGrid 11 (-110) (1 / 10) 22 = 12%Z) by (apply axisToGrid_at; [lra | lia]).
  assert (H8 : axisToGrid 8 (-110) (1 / 10) 22 = 11%Z) by (apply axisToGrid_at; [lra | lia]).
  unfold kernComputeIndices, posToGridIndex, posToGrid, gridSideCount.
  cbn [s_pos trio_sim]. simpl. rewrite H0, H12, H11, H8. reflexivity.
Qed.

Lemma trio_sorted :
  sort_by_key_result (kernComputeIndices 3 initSimulation_grid (s_pos trio_sim)) [2; 1; 0]%Z.
Proof.
  rewrite trio_keys. split.
  - exact (Permutation_sym (Permutation_rev [0; 1; 2]%Z)).
  - simpl. unfold nthZ; simpl.
    repeat constructor; lia.
Qed.

Lemma trio_ranges :
  forall c i,
    In i (loop_range
            (nthZ (s_start (stepSimulationScatteredGrid 3 initSimulation_grid [2; 1; 0]%Z 1 trio_sim)) c)
            (nthZ (s_end (stepSimulationScatteredGrid 3 initSimulation_grid [2; 1; 0]%Z 1 trio_sim)) c)) ->
    (0 <= i < 3)%Z.
Proof.
  unfold stepSimulationScatteredGrid. cbn zeta. rewrite trio_keys.
  change (s_end trio_sim) with (s_start trio_sim).
  replace (map (nthZ [5578; 5578; 5577]%Z) [2; 1; 0]%Z) with [5577; 5578; 5578]%Z
    by reflexivity.
  rewrite cell_tables_trio by lia. cbn iota beta. cbn [s_start s_end].
  intros c i Hi. apply trio_tables_ranges in Hi. lia.
Qed.

(** Witness for C10: three moving agents on the grid of [initSimulation],
    agents 0 and 1 in cell 5578, agent 2 in cell 5577; the sort result
    [[2; 1; 0]] moves agent 2 to slot 0 and agent 0 to slot 2. *)
Lemma coherent_step_permutes_scattered_step_witness :
  sort_by_key_result (kernComputeIndices 3 initSimulation_grid (s_pos trio_sim)) [2; 1; 0]%Z /\
  (forall c i,
     In i (loop_range
             (nthZ (s_start (stepSimulationScatteredGrid 3 initSimulation_grid [2; 1; 0]%Z 1 trio_sim)) c)
             (nthZ (s_end (stepSimulationScatteredGrid 3 initSimulation_grid [2; 1; 0]%Z 1 trio_sim)) c)) ->
     (0 <= i < 3)%Z) /\
  let sc := stepSimulationScatteredGrid 3 initSimulation_grid [2; 1; 0]%Z 1 trio_sim in
  let co := stepSimulationCoherentGrid 3 initSimulation_grid [2; 1; 0]%Z 1 trio_sim in
  s_start co = s_start sc /\ s_end co = s_end sc /\
  (forall k, (0 <= k < 3)%Z ->
     nthV (s_pos co) k = nthV (s_pos sc) (nthZ [2; 1; 0]%Z k) /\
     nthV (s_vel1 co) k = nthV (s_vel1 sc) (nthZ [2; 1; 0]%Z k)) /\
  Permutation (combine (s_pos co) (s_vel1 co)) (combine (s_pos sc) (s_vel1 sc)).
Proof.
  split; [exact trio_sorted|]. split; [exact trio_ranges|].
  exact (coherent_step_permutes_scattered_step 3 initSimulation_grid [2; 1; 0]%Z 1 trio_sim
           trio_sorted trio_ranges).
Defined.
